(** * Exhaustive enumeration solvers of [dimod.reference.samplers.exact_solver]

    A shallow embedding of the enumerators [_graycode], [_all_cases_dqm],
    [_all_cases_cqm], [_iterator_by_vartype] and of the entry points
    [ExactSolver.sample], [ExactDQMSolver.sample_dqm] and
    [ExactCQMSolver.sample_cqm], together with the properties that the
    specification states about them.

    Conventions of the embedding:
    - Python integers are [Z]; lengths and counts are [nat];
    - floating-point numbers (biases, energies, violations, tolerances) are
      exact rationals [Q]: every finite float is one, and the arithmetic on
      them is taken to be exact; infinities and NaN are not represented;
    - a numpy array is given by its shape and its item function; a matrix
      that the program walks row by row is a list of rows, read and updated
      with stdpp's lookup and insert;
    - a raised exception is the [Raise] value of the [result] type;
    - variable and constraint labels are strings. *)

From Stdlib Require Import ZArith QArith Qabs Lia List Bool.
From stdpp Require Import base option list strings gmap.

Local Open Scope Z_scope.

(** ** Exceptions *)

Inductive exn : Type :=
| ValueError
| IndexError.

Inductive result (A : Type) : Type :=
| Ok (a : A)
| Raise (e : exn).
Arguments Ok {A} a.
Arguments Raise {A} e.

Definition bind {A B : Type} (r : result A) (k : A -> result B) : result B :=
  match r with
  | Ok a => k a
  | Raise e => Raise e
  end.

Notation "x <- r ;; k" := (bind r (fun x => k))
  (at level 62, r at next level, right associativity).

Definition of_option {A : Type} (e : exn) (o : option A) : result A :=
  match o with
  | Some a => Ok a
  | None => Raise e
  end.

(** [for i in range(start, start + count): s = body(i, s)] *)
Fixpoint for_range {S : Type} (body : Z -> S -> result S)
    (start : Z) (count : nat) (s : S) : result S :=
  match count with
  | O => Ok s
  | Datatypes.S c => s' <- body start s ;; for_range body (start + 1) c s'
  end.

(** [for x in xs: s = body(s, x)] *)
Fixpoint foldM {S A : Type} (body : S -> A -> result S) (s : S) (xs : list A)
    : result S :=
  match xs with
  | [] => Ok s
  | x :: xs => s' <- body s x ;; foldM body s' xs
  end.

(** [[f(x) for x in xs]], stopping at the first exception. *)
Fixpoint mapM {A B : Type} (f : A -> result B) (xs : list A)
    : result (list B) :=
  match xs with
  | [] => Ok []
  | x :: xs => y <- f x ;; ys <- mapM f xs ;; Ok (y :: ys)
  end.

(** ** Python primitives *)

(** [int.bit_length()] *)
Definition bit_length (x : Z) : Z :=
  if x =? 0 then 0 else Z.log2 (Z.abs x) + 1.

(** [not x] for a numpy integer scalar, stored back into an integer array. *)
Definition py_not (x : Z) : Z := if x =? 0 then 1 else 0.

(** [int(x)] of a float: truncation towards zero. *)
Definition py_int (x : Q) : Z := Z.quot (Qnum x) (Zpos (Qden x)).

(** [range(lo, hi)] *)
Definition range (lo hi : Z) : list Z :=
  (fun i => lo + Z.of_nat i) <$> seq 0 (Z.to_nat (hi - lo)).

(** [all(flags)] *)
Definition py_all (flags : list bool) : bool := forallb id flags.

(** [itertools.product] applied to the pools: the rightmost pool advances
    fastest, and no pool at all gives the single empty tuple. *)
Fixpoint product {A : Type} (pools : list (list A)) : list (list A) :=
  match pools with
  | [] => [[]]
  | pool :: pools => x ← pool; cons x <$> product pools
  end.

(** Wrap-around of the [int8] element type. *)
Definition wrap8 (z : Z) : Z := (z + 128) mod 256 - 128.

(** ** numpy primitives *)

Abbreviation matrix := (list (list Z)).

(** Normalisation of an index into an axis of length [len]: negative
    indices count from the end, anything else out of range raises. *)
Definition np_index (len : nat) (i : Z) : result nat :=
  if (0 <=? i) && (i <? Z.of_nat len) then Ok (Z.to_nat i)
  else if (- Z.of_nat len <=? i) && (i <? 0)
       then Ok (Z.to_nat (i + Z.of_nat len))
  else Raise IndexError.

(** [np.empty((rows, cols))]: the contents are whatever the allocator
    returns, here the arbitrary function [junk]. *)
Definition np_empty (rows cols : nat) (junk : nat -> nat -> Z) : matrix :=
  (fun r => junk r <$> seq 0 cols) <$> seq 0 rows.

(** [np.zeros(d)] *)
Definition np_zeros (d : nat) : list Z := replicate d 0.

(** [a[r, :] = x] *)
Definition set_row_const (a : matrix) (r : Z) (x : Z) : result matrix :=
  i <- np_index (length a) r ;;
  old <- of_option IndexError (a !! i) ;;
  Ok (<[i := replicate (length old) x]> a).

(** [a[r, :]] *)
Definition get_row (a : matrix) (r : Z) : result (list Z) :=
  i <- np_index (length a) r ;;
  of_option IndexError (a !! i).

(** [a[r, :] = row] *)
Definition set_row (a : matrix) (r : Z) (row : list Z) : result matrix :=
  i <- np_index (length a) r ;;
  Ok (<[i := row]> a).

(** [a[r, c]] *)
Definition get_item (a : matrix) (r c : Z) : result Z :=
  row <- get_row a r ;;
  j <- np_index (length row) c ;;
  of_option IndexError (row !! j).

(** [a[r, c] = x] *)
Definition set_item (a : matrix) (r c : Z) (x : Z) : result matrix :=
  i <- np_index (length a) r ;;
  row <- of_option IndexError (a !! i) ;;
  j <- np_index (length row) c ;;
  Ok (<[i := <[j := x]> row]> a).

(** [s[c] = x] on a one-dimensional array *)
Definition set_item1 (s : list Z) (c : Z) (x : Z) : result (list Z) :=
  j <- np_index (length s) c ;;
  Ok (<[j := x]> s).

Module Numpy.

(** An n-dimensional array: its shape and the item at each multi-index. *)
Record ndarray : Type := mk_ndarray {
  shape : list nat;
  item : list nat -> Z
}.

(** The multi-indices of an array, in C (row-major) order. *)
Definition indices (shape : list nat) : list (list nat) :=
  product (seq 0 <$> shape).

(** Exchange of the first two axes, as the default ['xy'] indexing of
    [np.meshgrid] does. *)
Definition swap01 {A : Type} (l : list A) : list A :=
  match l with
  | a :: b :: l => b :: a :: l
  | _ => l
  end.

(** [np.meshgrid] applied to the arrays [xi] with its defaults
    ([indexing='xy'], dense): for two or more inputs the first two axes of
    every output are exchanged. *)
Definition meshgrid (xi : list (list Z)) : list ndarray :=
  let ndim := length xi in
  let s := length <$> xi in
  let xy (A : Type) (l : list A) := if (1 <? ndim)%nat then swap01 l else l in
  imap (fun i x =>
          {| shape := xy nat s;
             item := fun idx =>
                       default 0 (x !! default 0%nat (xy nat idx !! i)) |})
       xi.

(** [np.array(arrays)] for a list of arrays of one common shape: they are
    stacked along a new first axis; the empty list gives the empty
    one-dimensional array. *)
Definition array (arrays : list ndarray) : ndarray :=
  match arrays with
  | [] => {| shape := [0%nat]; item := fun _ => 0 |}
  | a :: _ =>
      {| shape := length arrays :: shape a;
         item := fun idx =>
                   match idx with
                   | [] => 0
                   | k :: idx =>
                       default 0 ((fun b => item b idx) <$> arrays !! k)
                   end |}
  end.

(** [a.T]: all axes reversed. *)
Definition T (a : ndarray) : ndarray :=
  {| shape := reverse (shape a); item := fun idx => item a (reverse idx) |}.

(** [a.ravel()]: the items in C order. *)
Definition ravel (a : ndarray) : list Z := item a <$> indices (shape a).

(** [count] consecutive chunks of [cols] items. *)
Fixpoint chunks (count cols : nat) (flat : list Z) : matrix :=
  match count with
  | O => []
  | S count => take cols flat :: chunks count cols (drop cols flat)
  end.

(** [a.reshape(-1, cols)], as the list of the rows of the result. The
    unknown dimension is the size divided by [cols]; it is an error when
    [cols] is zero or does not divide the size. *)
Definition reshape_rows (a : ndarray) (cols : nat) : result matrix :=
  let flat := ravel a in
  if (cols =? 0)%nat then Raise ValueError
  else if negb (length flat mod cols =? 0)%nat then Raise ValueError
  else Ok (chunks (length flat / cols) cols flat).

(** The items of [a] along its first axis, each one flattened: what
    [len(a)] counts and [for row in a] walks through. *)
Definition rows (a : ndarray) : matrix :=
  match shape a with
  | [] => []
  | d :: rest =>
      (fun i => (fun idx => item a (i :: idx)) <$> indices rest) <$> seq 0 d
  end.

End Numpy.

(** ** Data model *)

(** Modelled from the spec: the [Vartype] enumeration of [dimod.vartypes],
    which is not part of the sources at hand; the specification lists the
    domain kinds Binary, Spin, Integer and Discrete-case. *)
Inductive Vartype : Type :=
| BINARY
| SPIN
| INTEGER
| DISCRETE.

Global Instance Vartype_eq_dec : EqDecision Vartype.
Proof. solve_decision. Defined.

(** Modelled from the spec: the result-collection structure
    ([dimod.sampleset.SampleSet]) that stores the assignment matrix and its
    aligned variable labels, the per-sample energies and, for constrained
    models, the satisfaction matrix and the feasibility vector. *)
Record SampleSet : Type := mk_SampleSet {
  ss_samples : matrix;
  ss_variables : list string;
  ss_vartype : Vartype;
  ss_energy : list Q;
  ss_is_feasible : option (list bool);
  ss_is_satisfied : option (list (list bool))
}.

(** Modelled from the spec: [SampleSet.from_samples(samples_like, vartype,
    energy, **vectors)] (not part of the sources at hand) stores what it is
    handed: the rows, their labels, the energies and the named vectors. *)
Definition from_samples (samples : matrix) (labels : list string)
    (vartype : Vartype) (energy : list Q)
    (is_feasible : option (list bool))
    (is_satisfied : option (list (list bool))) : SampleSet :=
  mk_SampleSet samples labels vartype energy is_feasible is_satisfied.

(** The value a sample gives to the variable [v]. *)
Definition sample_value (labels : list string) (row : list Z) (v : string)
    : Z :=
  default 0 (p ← list_find (fun p => fst p = v) (zip labels row);
             Some (snd (snd p))).

(** A binary quadratic model: linear biases (one per variable, in variable
    order), quadratic biases, offset and the common variable type. *)
Record BinaryQuadraticModel : Type := mk_BQM {
  bqm_linear : list (string * Q);
  bqm_quadratic : list (string * string * Q);
  bqm_offset : Q;
  bqm_vartype : Vartype
}.

(** [bqm.variables] *)
Definition bqm_variables (bqm : BinaryQuadraticModel) : list string :=
  fst <$> bqm_linear bqm.

Definition Qsum (l : list Q) : Q := foldr Qplus 0%Q l.

(** Modelled from the spec: the energy evaluation of a binary quadratic
    model ([bqm.energies], not part of the sources at hand), in the
    standard Ising/QUBO form
    [offset + sum_v h_v s_v + sum_(u,v) J_uv s_u s_v]. *)
Definition bqm_energy (bqm : BinaryQuadraticModel) (labels : list string)
    (row : list Z) : Q :=
  let s v := inject_Z (sample_value labels row v) in
  (bqm_offset bqm
   + Qsum ((fun '(v, h) => h * s v) <$> bqm_linear bqm)
   + Qsum ((fun '(u, v, j) => j * s u * s v) <$> bqm_quadratic bqm))%Q.

(** Modelled from the spec: [SampleSet.from_samples_bqm((samples, labels),
    bqm)] (not part of the sources at hand) evaluates the energy of the
    model on every row and stores the rows with the variable type of the
    model. *)
Definition from_samples_bqm (samples : matrix) (labels : list string)
    (bqm : BinaryQuadraticModel) : SampleSet :=
  from_samples samples labels (bqm_vartype bqm)
    (bqm_energy bqm labels <$> samples) None None.

(** A discrete quadratic model, as far as the solver reads it. The energy
    of one assignment is a parameter: [dqm.energies] evaluates it on every
    row of a batch. *)
Record DiscreteQuadraticModel : Type := mk_DQM {
  dqm_variables : list string;
  dqm_num_cases : string -> nat;
  dqm_energy : list string -> list Z -> Q
}.

(** A constrained quadratic model, as far as the solver reads it.
    [cqm_discrete] lists the labels of the constraints registered as
    one-hot groups, in the iteration order of [cqm.discrete];
    [cqm_lhs_variables d] is [cqm.constraints[d].lhs.variables].
    The objective energy and the violation of each constraint at one
    assignment are parameters. *)
Record ConstrainedQuadraticModel : Type := mk_CQM {
  cqm_variables : list string;
  cqm_vartype : string -> Vartype;
  cqm_lower_bound : string -> Q;
  cqm_upper_bound : string -> Q;
  cqm_discrete : list string;
  cqm_lhs_variables : string -> list string;
  cqm_constraints : list string;
  cqm_violation : string -> list string -> list Z -> Q;
  cqm_objective_energy : list string -> list Z -> Q
}.

(** Modelled from the spec: [cqm.iter_violations((sample, labels))] (not
    part of the sources at hand) yields, for every declared constraint, its
    label and its violation magnitude at the sample. *)
Definition iter_violations (cqm : ConstrainedQuadraticModel)
    (sample : list Z) (labels : list string) : list (string * Q) :=
  (fun c => (c, cqm_violation cqm c labels sample)) <$> cqm_constraints cqm.

(** ** [_graycode] *)

Module Graycode.

(** One pass of the loop body of [_graycode]:
<<
    v = (i & -i).bit_length() - 1
    samples[i, :] = samples[i - 1, :]
    samples[i, v] = not samples[i - 1, v]
>> *)
Definition step (samples : matrix) (i : Z) : result matrix :=
  let v := bit_length (Z.land i (- i)) - 1 in
  prev <- get_row samples (i - 1) ;;
  samples <- set_row samples i prev ;;
  x <- get_item samples (i - 1) v ;;
  set_item samples i v (py_not x).

(** [_graycode(bqm)]; [junk] is the initial content of [np.empty]. *)
Definition _graycode (bqm : BinaryQuadraticModel) (junk : nat -> nat -> Z)
    : result matrix :=
  let n := length (bqm_variables bqm) in
  let ns := Z.shiftl 1 (Z.of_nat n) in
  let samples := np_empty (Z.to_nat ns) n junk in
  samples <- set_row_const samples 0 0 ;;
  for_range (fun i s => step s i) 1 (Z.to_nat (ns - 1)) samples.

End Graycode.

(** ** [ExactSolver] *)

Module ExactSolver.

(** [ExactSolver.sample(bqm)] *)
Definition sample (bqm : BinaryQuadraticModel) (junk : nat -> nat -> Z)
    : result SampleSet :=
  if (length (bqm_variables bqm) =? 0)%nat then
    Ok (from_samples [] [] (bqm_vartype bqm) [] None None)
  else
    samples <- Graycode._graycode bqm junk ;;
    let samples : matrix :=
      if decide (bqm_vartype bqm = SPIN)
      then (fun row : list Z => (fun x => wrap8 (wrap8 (2 * x) - 1)) <$> row)
             <$> samples
      else samples in
    Ok (from_samples_bqm samples (bqm_variables bqm) bqm).

End ExactSolver.

(** ** [ExactDQMSolver] *)

Module ExactDQMSolver.

(** [_all_cases_dqm(dqm)] *)
Definition _all_cases_dqm (dqm : DiscreteQuadraticModel)
    : result (matrix * list string) :=
  let cases :=
    (fun v => range 0 (Z.of_nat (dqm_num_cases dqm v))) <$> dqm_variables dqm in
  rows <- Numpy.reshape_rows (Numpy.T (Numpy.array (Numpy.meshgrid cases)))
            (length (dqm_variables dqm)) ;;
  Ok (rows, dqm_variables dqm).

(** [ExactDQMSolver.sample_dqm(dqm)] *)
Definition sample_dqm (dqm : DiscreteQuadraticModel) : result SampleSet :=
  if (length (dqm_variables dqm) =? 0)%nat then
    Ok (from_samples [] [] DISCRETE [] None None)
  else
    cases <- _all_cases_dqm dqm ;;
    let energies := dqm_energy dqm (snd cases) <$> fst cases in
    Ok (from_samples (fst cases) (snd cases) DISCRETE energies None None).

End ExactDQMSolver.

(** ** [ExactCQMSolver] *)

Module ExactCQMSolver.

(** [_iterator_by_vartype(cqm, v)] *)
Definition _iterator_by_vartype (cqm : ConstrainedQuadraticModel) (v : string)
    : result (list Z) :=
  if decide (cqm_vartype cqm v = BINARY) then Ok (range 0 2)
  else if decide (cqm_vartype cqm v = SPIN) then Ok [-1; 1]
  else if decide (cqm_vartype cqm v = INTEGER) then
    Ok (range (py_int (cqm_lower_bound cqm v))
              (py_int (cqm_upper_bound cqm v + 1)))
  else Raise ValueError.

(** The inner loop of [_all_cases_cqm]: the concatenation of one one-hot
    vector per discrete group.
<<
    l = []
    for i in range(len(indexes)):
        s = np.zeros(d_cases[i])
        s[indexes[i]] = 1
        l = np.concatenate([l, s])
>> *)
Definition one_hot_row (d_cases : list nat) (indexes : list Z)
    : result (list Z) :=
  foldM (fun l i =>
           d <- of_option IndexError (d_cases !! i) ;;
           ix <- of_option IndexError (indexes !! i) ;;
           s <- set_item1 (np_zeros d) ix 1 ;;
           Ok (l ++ s))
        [] (seq 0 (length indexes)).

(** The outer loop of [_all_cases_cqm] over
    the [itertools.product] of [range(d) for d in d_cases]. *)
Fixpoint combine (d_cases : list nat) (c1 : matrix) (tuples : list (list Z))
    (combinations : matrix) : result matrix :=
  match tuples with
  | [] => Ok combinations
  | indexes :: tuples =>
      if (length indexes =? 0)%nat then Ok combinations
      else
        l <- one_hot_row d_cases indexes ;;
        let combinations :=
          if negb (length c1 =? 0)%nat
          then combinations ++ ((fun row => l ++ row) <$> c1)
          else combinations ++ [l] in
        combine d_cases c1 tuples combinations
  end.

(** [_all_cases_cqm(cqm)] *)
Definition _all_cases_cqm (cqm : ConstrainedQuadraticModel)
    : result (matrix * list string) :=
  let var_list := cqm_variables cqm in
  let d_cases :=
    (fun d => length (cqm_lhs_variables cqm d)) <$> cqm_discrete cqm in
  let d_vars := d ← cqm_discrete cqm; cqm_lhs_variables cqm d in
  let s : gset string := list_to_set d_vars in
  let var_list := filter (fun v => v ∉ s) var_list in
  cases <- mapM (_iterator_by_vartype cqm) var_list ;;
  let c1 := Numpy.array (Numpy.meshgrid cases) in
  c1 <- (if negb (length var_list =? 0)%nat
         then Numpy.reshape_rows (Numpy.T c1) (length var_list)
         else Ok (Numpy.rows c1)) ;;
  combinations <-
    combine d_cases c1
      (product ((fun d => range 0 (Z.of_nat d)) <$> d_cases)) [] ;;
  let var_list := d_vars ++ var_list in
  let combinations :=
    if (length combinations =? 0)%nat then c1 else combinations in
  Ok (combinations, var_list).

(** The satisfaction flags of sample [i]:
    [[violation <= atol + rtol*abs(energies[i])
      for _, violation in cqm.iter_violations((cases[0][i], cases[1]))]] *)
Definition satisfied_row (cqm : ConstrainedQuadraticModel) (rtol atol : Q)
    (cases : matrix * list string) (energies : list Q) (i : nat)
    : result (list bool) :=
  row <- of_option IndexError (fst cases !! i) ;;
  e <- of_option IndexError (energies !! i) ;;
  Ok ((fun '(_, violation) => Qle_bool violation (atol + rtol * Qabs e)%Q)
        <$> iter_violations cqm row (snd cases)).

(** [ExactCQMSolver.sample_cqm(cqm, rtol, atol)] *)
Definition sample_cqm (cqm : ConstrainedQuadraticModel) (rtol atol : Q)
    : result SampleSet :=
  if (length (cqm_variables cqm) =? 0)%nat then
    Ok (from_samples [] [] INTEGER [] None None)
  else
    cases <- _all_cases_cqm cqm ;;
    let energies := cqm_objective_energy cqm (snd cases) <$> fst cases in
    is_satisfied <-
      mapM (satisfied_row cqm rtol atol cases energies)
           (seq 0 (length (fst cases))) ;;
    let is_feasible := py_all <$> is_satisfied in
    Ok (from_samples (fst cases) (snd cases) INTEGER energies
          (Some is_feasible) (Some is_satisfied)).

End ExactCQMSolver.

(** ** Small models *)

Section Models.

Local Open Scope string_scope.

Definition ising_ab : BinaryQuadraticModel :=
  {| bqm_linear := [("a", (-1 # 2)%Q); ("b", 1%Q)];
     bqm_quadratic := [("a", "b", (-3 # 2)%Q)];
     bqm_offset := 0%Q;
     bqm_vartype := SPIN |}.

Definition dqm_3_2 : DiscreteQuadraticModel :=
  {| dqm_variables := ["u"; "v"];
     dqm_num_cases := fun v => if decide (v = "u") then 3%nat else 2%nat;
     dqm_energy := fun _ _ => 0%Q |}.

Definition dqm_2_3_2 : DiscreteQuadraticModel :=
  {| dqm_variables := ["u"; "v"; "w"];
     dqm_num_cases := fun v => if decide (v = "v") then 3%nat else 2%nat;
     dqm_energy := fun _ _ => 0%Q |}.

Definition cqm_mixed : ConstrainedQuadraticModel :=
  {| cqm_variables := ["x"; "d0"; "d1"; "d2"; "i"];
     cqm_vartype := fun v => if decide (v = "i") then INTEGER
                             else if decide (v = "x") then SPIN else BINARY;
     cqm_lower_bound := fun _ => 3%Q;
     cqm_upper_bound := fun _ => 4%Q;
     cqm_discrete := ["c"];
     cqm_lhs_variables := fun _ => ["d0"; "d1"; "d2"];
     cqm_constraints := ["c"];
     cqm_violation := fun _ _ _ => 0%Q;
     cqm_objective_energy := fun _ _ => 0%Q |}.

(** The model of the docstring of [ExactCQMSolver]: binary [x], [y], [z],
    objective [x*y + 2*y*z] and the constraint [x*y == 1]. *)
Definition cqm_xyz : ConstrainedQuadraticModel :=
  {| cqm_variables := ["x"; "y"; "z"];
     cqm_vartype := fun _ => BINARY;
     cqm_lower_bound := fun _ => 0%Q;
     cqm_upper_bound := fun _ => 1%Q;
     cqm_discrete := [];
     cqm_lhs_variables := fun _ => ["x"; "y"];
     cqm_constraints := ["constraint_1"];
     cqm_violation := fun _ labels row =>
       let val := sample_value labels row in
       inject_Z (Z.abs (val "x" * val "y" - 1));
     cqm_objective_energy := fun labels row =>
       let val := sample_value labels row in
       inject_Z (val "x" * val "y" + 2 * val "y" * val "z") |}.


(** A model with a variable of an unsupported kind. *)
Definition cqm_unsupported : ConstrainedQuadraticModel :=
  {| cqm_variables := ["x"; "w"];
     cqm_vartype := fun v => if decide (v = "w") then DISCRETE else BINARY;
     cqm_lower_bound := fun _ => 0%Q;
     cqm_upper_bound := fun _ => 1%Q;
     cqm_discrete := [];
     cqm_lhs_variables := fun _ => [];
     cqm_constraints := [];
     cqm_violation := fun _ _ _ => 0%Q;
     cqm_objective_energy := fun _ _ => 0%Q |}.

(** Models without variables. *)
Definition empty_bqm : BinaryQuadraticModel :=
  {| bqm_linear := []; bqm_quadratic := []; bqm_offset := 0%Q;
     bqm_vartype := BINARY |}.

Definition empty_dqm : DiscreteQuadraticModel :=
  {| dqm_variables := [];
     dqm_num_cases := fun _ => 1%nat;
     dqm_energy := fun _ _ => 0%Q |}.

Definition empty_cqm : ConstrainedQuadraticModel :=
  {| cqm_variables := [];
     cqm_vartype := fun _ => BINARY;
     cqm_lower_bound := fun _ => 0%Q;
     cqm_upper_bound := fun _ => 1%Q;
     cqm_discrete := [];
     cqm_lhs_variables := fun _ => [];
     cqm_constraints := [];
     cqm_violation := fun _ _ _ => 0%Q;
     cqm_objective_energy := fun _ _ => 0%Q |}.

End Models.

(** * Vocabulary of the specification *)

(** ** Bits of the loop index *)

(** Number of trailing zero bits of a positive number. *)
Fixpoint pos_ctz (p : positive) : nat :=
  match p with
  | xO q => S (pos_ctz q)
  | _ => O
  end.

(** The index the loop computes: [(i & -i).bit_length() - 1]. *)
Definition lowest_set_bit (i : Z) : Z := bit_length (Z.land i (- i)) - 1.

(** ** The reflected binary Gray code *)

(** The [i]-th Gray code word, as a number. *)
Definition gray (i : Z) : Z := Z.lxor i (Z.shiftr i 1).

(** The [n] low bits of [x], least significant first, as a 0/1 row. *)
Definition bits (n : nat) (x : Z) : list Z :=
  (fun j => Z.b2z (Z.testbit x (Z.of_nat j))) <$> seq 0 n.

(** The matrix whose row [i] holds the bits of the [i]-th Gray code word. *)
Definition gray_matrix (n : nat) : matrix :=
  (fun i => bits n (gray (Z.of_nat i))) <$> seq 0 (Z.to_nat (2 ^ Z.of_nat n)).

(** Rows [0 .. k-1] are final; the rows from [k] on are still arbitrary. *)
Definition filled (n k : nat) (samples : matrix) : Prop :=
  length samples = Z.to_nat (2 ^ Z.of_nat n) /\
  forall j, (j < k)%nat -> samples !! j = Some (bits n (gray (Z.of_nat j))).

(** A 0/1 vector of length [n]. *)
Definition binary_vector (n : nat) (v : list Z) : Prop :=
  length v = n /\ Forall (fun b => b = 0 \/ b = 1) v.

(** ** Sizes and grids *)

(** The product of a list of sizes. *)
Definition prod_list (sizes : list nat) : nat := foldr Nat.mul 1%nat sizes.

(** The row that a tuple of positions picks out of the pools. *)
Definition pick (pools : list (list Z)) (pos : list nat) : list Z :=
  zip_with (fun pool i => default 0 (pool !! i)) pools pos.

(** Closed form of the rows of
    [np.array(np.meshgrid(pools...)).T.reshape(-1, len(pools))]: the
    multi-indices of the transposed grid in C order, each one turned back
    into a tuple of positions in the pools. *)
Definition grid_rows (pools : list (list Z)) : matrix :=
  (fun idx => pick pools (Numpy.swap01 (reverse idx)))
    <$> Numpy.indices (reverse (Numpy.swap01 (length <$> pools))).

(** ** Groups and free-form variables of a constrained model *)

(** The variables of the one-hot groups, group after group ([d_vars]). *)
Definition discrete_variables (cqm : ConstrainedQuadraticModel) : list string :=
  d ← cqm_discrete cqm; cqm_lhs_variables cqm d.

(** The sizes of the one-hot groups ([d_cases]). *)
Definition group_sizes (cqm : ConstrainedQuadraticModel) : list nat :=
  (fun d => length (cqm_lhs_variables cqm d)) <$> cqm_discrete cqm.

(** The free-form variables: those of no one-hot group. *)
Definition free_variables (cqm : ConstrainedQuadraticModel) : list string :=
  filter (fun v => v ∉ (list_to_set (discrete_variables cqm) : gset string))
         (cqm_variables cqm).

(** The domain kinds that [ExactCQMSolver] enumerates. *)
Definition supported (t : Vartype) : Prop :=
  t = BINARY \/ t = SPIN \/ t = INTEGER.



(** A tuple of case indices, one per group and each within its group. *)
Definition in_groups (sizes : list nat) (indexes : list Z) : Prop :=
  Forall2 (fun ix d => 0 <= ix < Z.of_nat d) indexes sizes.

(** The one-hot vector of length [d] with its 1 at position [i]. *)
Definition one_hot_vector (d : nat) (i : Z) : list Z :=
  <[Z.to_nat i := 1]> (replicate d 0).

(** One one-hot vector per group, concatenated. *)
Definition one_hot_concat (sizes : list nat) (indexes : list Z) : list Z :=
  mjoin (zip_with one_hot_vector sizes indexes).

(** The choices of one case per group. *)
Definition group_choices (sizes : list nat) : list (list Z) :=
  product ((fun d => range 0 (Z.of_nat d)) <$> sizes).

(** The rows of the discrete groups alone. *)
Definition discrete_rows (sizes : list nat) : matrix :=
  one_hot_concat sizes <$> group_choices sizes.

(** The rows [c1] of the free-form variables. *)
Definition free_rows (pools : list (list Z)) : matrix :=
  match pools with
  | [] => []
  | _ => grid_rows pools
  end.

(** Closed form of the matrix that [_all_cases_cqm] returns. *)
Definition joined_rows (sizes : list nat) (pools : list (list Z)) : matrix :=
  let c1 := free_rows pools in
  let combinations :=
    match sizes with
    | [] => []
    | _ => group_choices sizes ≫= (fun indexes =>
             match c1 with
             | [] => [one_hot_concat sizes indexes]
             | _ => (fun row => one_hot_concat sizes indexes ++ row) <$> c1
             end)
    end in
  match combinations with
  | [] => c1
  | _ => combinations
  end.

(** ** Satisfaction and feasibility flags *)

(** The satisfaction flags of one sample: one flag per declared constraint,
    in declaration order. *)
Definition satisfied_flags (cqm : ConstrainedQuadraticModel) (rtol atol : Q)
    (labels : list string) (row : list Z) : list bool :=
  (fun c => Qle_bool (cqm_violation cqm c labels row)
              (atol + rtol * Qabs (cqm_objective_energy cqm labels row))%Q)
    <$> cqm_constraints cqm.





(** * Properties *)

(** ** Runs of the enumerators on the small models *)

Example graycode_ising_ab :
  Graycode._graycode ising_ab (fun _ _ => 77)
  = Ok [[0; 0]; [1; 0]; [1; 1]; [0; 1]].
Proof. reflexivity. Qed.

Example all_cases_dqm_3_2 :
  ExactDQMSolver._all_cases_dqm dqm_3_2
  = Ok ([[0; 0]; [0; 1]; [1; 0]; [1; 1]; [2; 0]; [2; 1]], ["u"; "v"]%string).
Proof. reflexivity. Qed.

Example all_cases_dqm_2_3_2 :
  ExactDQMSolver._all_cases_dqm dqm_2_3_2
  = Ok ([[0; 0; 0]; [0; 1; 0]; [0; 2; 0]; [1; 0; 0]; [1; 1; 0]; [1; 2; 0];
         [0; 0; 1]; [0; 1; 1]; [0; 2; 1]; [1; 0; 1]; [1; 1; 1]; [1; 2; 1]],
        ["u"; "v"; "w"]%string).
Proof. reflexivity. Qed.

Example all_cases_cqm_mixed :
  ExactCQMSolver._all_cases_cqm cqm_mixed
  = Ok ([[1; 0; 0; -1; 3]; [1; 0; 0; -1; 4]; [1; 0; 0; 1; 3]; [1; 0; 0; 1; 4];
         [0; 1; 0; -1; 3]; [0; 1; 0; -1; 4]; [0; 1; 0; 1; 3]; [0; 1; 0; 1; 4];
         [0; 0; 1; -1; 3]; [0; 0; 1; -1; 4]; [0; 0; 1; 1; 3]; [0; 0; 1; 1; 4]],
        ["d0"; "d1"; "d2"; "x"; "i"]%string).
Proof. reflexivity. Qed.


(** ** Bit-level facts about the loop index *)

Section LowestSetBit.

Lemma land_double a b : Z.land (2 * a) (2 * b) = 2 * Z.land a b.
Proof.
  apply Z.bits_inj'. intros j Hj.
  rewrite Z.land_spec.
  destruct (Z.eq_dec j 0) as [->|Hne].
  - now rewrite !Z.testbit_even_0.
  - replace j with (Z.succ (j - 1)) by lia.
    rewrite !Z.testbit_even_succ by lia. now rewrite Z.land_spec.
Qed.

Lemma land_neg_pos p :
  Z.land (Zpos p) (- Zpos p) = 2 ^ Z.of_nat (pos_ctz p).
Proof.
  induction p as [q _|q IH|].
  - cbn [pos_ctz]. apply Z.bits_inj'. intros j Hj.
    rewrite Z.land_spec, Z.pow_0_r.
    destruct (Z.eq_dec j 0) as [->|Hne]; [reflexivity|].
    replace j with (Z.succ (j - 1)) by lia.
    replace (- Z.pos q~1) with (2 * Z.lnot (Zpos q) + 1)
      by (unfold Z.lnot; lia).
    replace (Z.pos q~1) with (2 * Zpos q + 1) by lia.
    rewrite !Z.testbit_odd_succ by lia.
    rewrite Z.lnot_spec by lia.
    rewrite andb_negb_r.
    replace 1 with (2 * 0 + 1) by lia. rewrite Z.testbit_odd_succ by lia.
    now rewrite Z.testbit_0_l.
  - cbn [pos_ctz].
    replace (Z.pos q~0) with (2 * Zpos q) by lia.
    replace (- (2 * Zpos q)) with (2 * - Zpos q) by lia.
    rewrite land_double, IH, Nat2Z.inj_succ, Z.pow_succ_r by lia.
    reflexivity.
  - reflexivity.
Qed.

Lemma lowest_set_bit_pos p : lowest_set_bit (Zpos p) = Z.of_nat (pos_ctz p).
Proof.
  unfold lowest_set_bit, bit_length. rewrite land_neg_pos.
  assert (0 < 2 ^ Z.of_nat (pos_ctz p)) by (apply Z.pow_pos_nonneg; lia).
  destruct (Z.eqb_spec (2 ^ Z.of_nat (pos_ctz p)) 0); [lia|].
  rewrite Z.abs_eq by lia. rewrite Z.log2_pow2 by lia. lia.
Qed.

Lemma testbit_ctz p : Z.testbit (Zpos p) (Z.of_nat (pos_ctz p)) = true.
Proof.
  induction p as [q _|q IH|]; cbn [pos_ctz]; try reflexivity.
  rewrite Nat2Z.inj_succ.
  replace (Z.pos q~0) with (2 * Zpos q) by lia.
  now rewrite Z.testbit_even_succ by lia.
Qed.

Lemma testbit_below_ctz p j :
  0 <= j < Z.of_nat (pos_ctz p) -> Z.testbit (Zpos p) j = false.
Proof.
  revert j. induction p as [q _|q IH|]; cbn [pos_ctz]; intros j Hj; try lia.
  replace (Z.pos q~0) with (2 * Zpos q) by lia.
  destruct (Z.eq_dec j 0) as [->|Hne]; [apply Z.testbit_even_0|].
  replace j with (Z.succ (j - 1)) by lia.
  rewrite Z.testbit_even_succ by lia. apply IH. lia.
Qed.

(** The bits of [i - 1]: ones below the lowest set bit of [i], a zero at
    it, the bits of [i] above. *)
Lemma testbit_pred p j :
  0 <= j ->
  Z.testbit (Zpos p - 1) j =
    if j <? Z.of_nat (pos_ctz p) then true
    else if j =? Z.of_nat (pos_ctz p) then false
    else Z.testbit (Zpos p) j.
Proof.
  revert j. induction p as [q _|q IH|]; cbn [pos_ctz]; intros j Hj.
  - replace (Z.pos q~1 - 1) with (2 * Zpos q) by lia.
    replace (Z.pos q~1) with (2 * Zpos q + 1) by lia.
    destruct (Z.eq_dec j 0) as [->|Hne]; [apply Z.testbit_even_0|].
    destruct (Z.ltb_spec j (Z.of_nat 0)); [lia|].
    destruct (Z.eqb_spec j (Z.of_nat 0)); [lia|].
    replace j with (Z.succ (j - 1)) by lia.
    now rewrite Z.testbit_even_succ, Z.testbit_odd_succ by lia.
  - replace (Z.pos q~0 - 1) with (2 * (Zpos q - 1) + 1) by lia.
    replace (Z.pos q~0) with (2 * Zpos q) by lia.
    rewrite Nat2Z.inj_succ.
    destruct (Z.eq_dec j 0) as [->|Hne].
    + rewrite Z.testbit_odd_0.
      destruct (Z.ltb_spec 0 (Z.succ (Z.of_nat (pos_ctz q)))); [reflexivity|lia].
    + replace j with (Z.succ (j - 1)) at 1 4 by lia.
      rewrite Z.testbit_odd_succ, Z.testbit_even_succ by lia.
      rewrite IH by lia.
      destruct (Z.ltb_spec (j - 1) (Z.of_nat (pos_ctz q)));
        destruct (Z.ltb_spec j (Z.succ (Z.of_nat (pos_ctz q)))); try lia;
        try reflexivity.
      destruct (Z.eqb_spec (j - 1) (Z.of_nat (pos_ctz q)));
        destruct (Z.eqb_spec j (Z.succ (Z.of_nat (pos_ctz q)))); try lia;
        reflexivity.
  - cbn. destruct j; try lia; reflexivity.
Qed.

Lemma ctz_lt_log i n :
  0 < i < 2 ^ Z.of_nat n ->
  match i with Zpos p => (pos_ctz p < n)%nat | _ => False end.
Proof.
  destruct i as [|p|p]; try lia. intros Hi.
  destruct (Nat.lt_ge_cases (pos_ctz p) n) as [|Hge]; [assumption|].
  exfalso.
  pose proof (testbit_ctz p) as Hb.
  rewrite <- (Z.mod_small (Zpos p) (2 ^ Z.of_nat n)) in Hb by lia.
  rewrite Z.mod_pow2_bits_high in Hb by lia. discriminate.
Qed.

End LowestSetBit.

(** ** Array accesses that stay in range *)

Section ArrayAccess.

Lemma np_index_ok (len i : nat) : (i < len)%nat -> np_index len (Z.of_nat i) = Ok i.
Proof.
  intros Hi. unfold np_index.
  destruct (Z.leb_spec 0 (Z.of_nat i)); [|lia].
  destruct (Z.ltb_spec (Z.of_nat i) (Z.of_nat len)); [|lia].
  cbn. now rewrite Nat2Z.id.
Qed.

Lemma get_row_ok (a : matrix) (i : nat) row :
  a !! i = Some row -> get_row a (Z.of_nat i) = Ok row.
Proof.
  intros Hrow. unfold get_row.
  rewrite np_index_ok by (eapply lookup_lt_Some; eassumption).
  cbn. now rewrite Hrow.
Qed.

Lemma set_row_ok (a : matrix) (i : nat) row :
  (i < length a)%nat -> set_row a (Z.of_nat i) row = Ok (<[i := row]> a).
Proof. intros Hi. unfold set_row. now rewrite np_index_ok. Qed.

Lemma get_item_ok (a : matrix) (i j : nat) row x :
  a !! i = Some row -> row !! j = Some x ->
  get_item a (Z.of_nat i) (Z.of_nat j) = Ok x.
Proof.
  intros Hrow Hx. unfold get_item. rewrite (get_row_ok _ _ _ Hrow). cbn.
  rewrite np_index_ok by (eapply lookup_lt_Some; eassumption).
  cbn. now rewrite Hx.
Qed.

Lemma set_item_ok (a : matrix) (i j : nat) row x :
  a !! i = Some row -> (j < length row)%nat ->
  set_item a (Z.of_nat i) (Z.of_nat j) x = Ok (<[i := <[j := x]> row]> a).
Proof.
  intros Hrow Hj. unfold set_item.
  rewrite np_index_ok by (eapply lookup_lt_Some; eassumption).
  cbn. rewrite Hrow. cbn. now rewrite np_index_ok.
Qed.

Lemma length_np_empty rows cols junk : length (np_empty rows cols junk) = rows.
Proof. unfold np_empty. now rewrite length_fmap, length_seq. Qed.

Lemma lookup_np_empty rows cols junk r :
  (r < rows)%nat -> np_empty rows cols junk !! r = Some (junk r <$> seq 0 cols).
Proof.
  intros Hr. unfold np_empty. rewrite list_lookup_fmap, lookup_seq_lt by assumption.
  reflexivity.
Qed.

End ArrayAccess.

(** ** The reflected binary Gray code *)

Section GrayBits.

Lemma gray_testbit i j :
  0 <= j -> Z.testbit (gray i) j = xorb (Z.testbit i j) (Z.testbit i (j + 1)).
Proof. intros Hj. unfold gray. now rewrite Z.lxor_spec, Z.shiftr_spec by lia. Qed.

Lemma gray_step p j :
  0 <= j ->
  Z.testbit (gray (Zpos p)) j =
    xorb (Z.testbit (gray (Zpos p - 1)) j) (j =? Z.of_nat (pos_ctz p)).
Proof.
  intros Hj. rewrite !gray_testbit, !testbit_pred by lia.
  set (c := Z.of_nat (pos_ctz p)).
  destruct (Z.ltb_spec j c) as [Hlt|Hge].
  - rewrite (testbit_below_ctz p j) by (fold c; lia).
    destruct (Z.eqb_spec j c); [lia|].
    destruct (Z.ltb_spec (j + 1) c).
    + rewrite (testbit_below_ctz p (j + 1)) by (fold c; lia). reflexivity.
    + destruct (Z.eqb_spec (j + 1) c) as [Heq|]; [|lia].
      rewrite Heq. unfold c. rewrite testbit_ctz. reflexivity.
  - destruct (Z.ltb_spec (j + 1) c); [lia|].
    destruct (Z.eqb_spec (j + 1) c); [lia|].
    destruct (Z.eqb_spec j c) as [->|].
    + unfold c. rewrite testbit_ctz.
      destruct (Z.testbit (Z.pos p) (Z.of_nat (pos_ctz p) + 1)); reflexivity.
    + now rewrite xorb_false_r.
Qed.

Lemma length_bits n x : length (bits n x) = n.
Proof. unfold bits. now rewrite length_fmap, length_seq. Qed.

Lemma lookup_bits n x j :
  (j < n)%nat -> bits n x !! j = Some (Z.b2z (Z.testbit x (Z.of_nat j))).
Proof.
  intros Hj. unfold bits. now rewrite list_lookup_fmap, lookup_seq_lt by assumption.
Qed.

Lemma bits_zero n : bits n 0 = replicate n 0.
Proof.
  apply list_eq. intros j.
  destruct (Nat.lt_ge_cases j n) as [Hj|Hj].
  - rewrite lookup_bits, lookup_replicate_2 by assumption.
    now rewrite Z.testbit_0_l.
  - rewrite !lookup_ge_None_2; [reflexivity| |];
      now rewrite ?length_replicate, ?length_bits.
Qed.

Lemma py_not_b2z b : py_not (Z.b2z b) = Z.b2z (negb b).
Proof. now destruct b. Qed.

(** Flipping the entry at the lowest set bit of [i] in row [i - 1] gives
    row [i]. *)
Lemma bits_gray_flip n p :
  (pos_ctz p < n)%nat ->
  <[pos_ctz p := py_not (Z.b2z (Z.testbit (gray (Zpos p - 1)) (Z.of_nat (pos_ctz p))))]>
    (bits n (gray (Zpos p - 1))) = bits n (gray (Zpos p)).
Proof.
  intros Hv. apply list_eq. intros j.
  destruct (Nat.lt_ge_cases j n) as [Hj|Hj].
  - rewrite (lookup_bits n (gray (Zpos p))) by assumption.
    rewrite gray_step by lia.
    destruct (Nat.eq_dec j (pos_ctz p)) as [->|Hne].
    + rewrite list_lookup_insert_eq by (now rewrite length_bits).
      rewrite Z.eqb_refl, py_not_b2z. now rewrite xorb_true_r.
    + rewrite list_lookup_insert_ne by congruence.
      rewrite lookup_bits by assumption.
      destruct (Z.eqb_spec (Z.of_nat j) (Z.of_nat (pos_ctz p))); [lia|].
      now rewrite xorb_false_r.
  - rewrite !lookup_ge_None_2; [reflexivity| |];
      now rewrite ?length_insert, ?length_bits.
Qed.

End GrayBits.

(** ** The loop of [_graycode] fills in the Gray code matrix *)

Section GraycodeLoop.

Variable n : nat.

Local Abbreviation filled := (filled n).

Lemma pow2_nat_pos : (0 < Z.to_nat (2 ^ Z.of_nat n))%nat.
Proof. assert (0 < 2 ^ Z.of_nat n) by (apply Z.pow_pos_nonneg; lia). lia. Qed.

Lemma step_filled k samples :
  filled k samples -> (1 <= k)%nat -> (k < Z.to_nat (2 ^ Z.of_nat n))%nat ->
  exists samples', Graycode.step samples (Z.of_nat k) = Ok samples' /\
                   filled (S k) samples'.
Proof.
  intros [Hlen Hrows] Hk1 Hk2.
  assert (Hpos : exists p, Z.of_nat k = Zpos p).
  { destruct (Z.of_nat k) as [|p|p] eqn:E; try lia. now exists p. }
  destruct Hpos as [p Hp].
  assert (Hv : (pos_ctz p < n)%nat).
  { pose proof (ctz_lt_log (Zpos p) n) as H. cbn in H. apply H. lia. }
  set (prev := bits n (gray (Z.of_nat (k - 1)))).
  assert (Hprev : samples !! (k - 1)%nat = Some prev) by (apply Hrows; lia).
  set (x := Z.b2z (Z.testbit (gray (Zpos p - 1)) (Z.of_nat (pos_ctz p)))).
  assert (Hx : prev !! pos_ctz p = Some x).
  { unfold prev, x. rewrite lookup_bits by assumption.
    now replace (Z.of_nat (k - 1)) with (Zpos p - 1) by lia. }
  exists (<[k := <[pos_ctz p := py_not x]> prev]> (<[k := prev]> samples)).
  split.
  - unfold Graycode.step. cbv zeta.
    change (bit_length (Z.land (Z.of_nat k) (- Z.of_nat k)) - 1)
      with (lowest_set_bit (Z.of_nat k)).
    rewrite (f_equal lowest_set_bit Hp), lowest_set_bit_pos.
    replace (Z.of_nat k - 1) with (Z.of_nat (k - 1)) by lia.
    rewrite (get_row_ok _ _ _ Hprev). cbn.
    rewrite set_row_ok by lia. cbn.
    assert (Hprev' : <[k := prev]> samples !! (k - 1)%nat = Some prev).
    { rewrite list_lookup_insert_ne by lia. assumption. }
    rewrite (get_item_ok _ _ _ _ _ Hprev' Hx). cbn.
    apply set_item_ok.
    + rewrite list_lookup_insert_eq by lia. reflexivity.
    + unfold prev. now rewrite length_bits.
  - split.
    + now rewrite !length_insert.
    + intros j Hj. destruct (Nat.eq_dec j k) as [->|Hne].
      * rewrite list_lookup_insert_eq by (rewrite length_insert; lia).
        f_equal. unfold x, prev.
        replace (Z.of_nat (k - 1)) with (Zpos p - 1) by lia.
        rewrite Hp. now apply bits_gray_flip.
      * rewrite !list_lookup_insert_ne by congruence. apply Hrows. lia.
Qed.

Lemma loop_filled count : forall k samples,
  filled k samples -> (1 <= k)%nat ->
  (k + count = Z.to_nat (2 ^ Z.of_nat n))%nat ->
  exists samples',
    for_range (fun i s => Graycode.step s i) (Z.of_nat k) count samples = Ok samples' /\
    filled (k + count) samples'.
Proof.
  induction count as [|c IH]; intros k samples Hfill Hk Hsum.
  - exists samples. rewrite Nat.add_0_r. now split.
  - destruct (step_filled k samples Hfill Hk ltac:(lia)) as (s1 & Hstep & Hfill1).
    destruct (IH (S k) s1 Hfill1 ltac:(lia) ltac:(lia)) as (s2 & Hloop & Hfill2).
    exists s2. split.
    + cbn [for_range]. rewrite Hstep. cbn [bind].
      replace (Z.of_nat k + 1) with (Z.of_nat (S k)) by lia. exact Hloop.
    + now replace (k + S c)%nat with (S k + c)%nat by lia.
Qed.

Lemma filled_all samples :
  filled (Z.to_nat (2 ^ Z.of_nat n)) samples -> samples = gray_matrix n.
Proof.
  intros [Hlen Hrows]. apply list_eq. intros j. unfold gray_matrix.
  rewrite list_lookup_fmap.
  destruct (Nat.lt_ge_cases j (Z.to_nat (2 ^ Z.of_nat n))) as [Hj|Hj].
  - rewrite lookup_seq_lt by assumption. now apply Hrows.
  - rewrite lookup_seq_ge by assumption. apply lookup_ge_None_2. lia.
Qed.

Lemma graycode_loop_closed_form junk :
  (samples <- set_row_const (np_empty (Z.to_nat (2 ^ Z.of_nat n)) n junk) 0 0 ;;
   for_range (fun i s => Graycode.step s i) 1
     (Z.to_nat (2 ^ Z.of_nat n - 1)) samples)
  = Ok (gray_matrix n).
Proof.
  pose proof pow2_nat_pos as Hpos.
  set (ns := Z.to_nat (2 ^ Z.of_nat n)) in *.
  set (a0 := np_empty ns n junk).
  set (a1 := <[0%nat := replicate n 0]> a0).
  assert (Hinit : set_row_const a0 0 0 = Ok a1).
  { unfold set_row_const.
    change 0 with (Z.of_nat 0) at 1.
    rewrite np_index_ok by (unfold a0; now rewrite length_np_empty).
    cbn [bind]. unfold a0 at 1. rewrite lookup_np_empty by assumption.
    cbn [of_option bind]. now rewrite length_fmap, length_seq. }
  rewrite Hinit. cbn [bind].
  assert (Hfill : filled 1 a1).
  { split.
    - unfold a1, a0. now rewrite length_insert, length_np_empty.
    - intros j Hj. assert (j = 0%nat) as -> by lia.
      unfold a1. rewrite list_lookup_insert_eq
        by (unfold a0; now rewrite length_np_empty).
      cbn. unfold gray. cbn. now rewrite bits_zero. }
  destruct (loop_filled (ns - 1) 1 a1 Hfill ltac:(lia) ltac:(lia))
    as (s & Hloop & Hfull).
  replace (Z.to_nat (2 ^ Z.of_nat n - 1)) with (ns - 1)%nat by lia.
  change (Z.of_nat 1) with 1 in Hloop. rewrite Hloop. f_equal.
  apply filled_all. now replace (1 + (ns - 1))%nat with ns in Hfull by lia.
Qed.

End GraycodeLoop.

(** [_graycode] never raises and returns the Gray code matrix, whatever
    the initial contents of the array. *)
Lemma graycode_closed_form bqm junk :
  Graycode._graycode bqm junk = Ok (gray_matrix (length (bqm_variables bqm))).
Proof.
  unfold Graycode._graycode. cbv zeta. rewrite Z.shiftl_1_l.
  apply graycode_loop_closed_form.
Qed.

(** ** Cartesian products *)

Section Product.

Context {A : Type}.
Implicit Types (pools : list (list A)) (v : list A).

Lemma length_bind_const {B : Type} (f : A -> list B) (l : list A) (k : nat) :
  (forall x, length (f x) = k) -> length (l ≫= f) = (length l * k)%nat.
Proof.
  intros Hf. induction l as [|x l IH]; [reflexivity|].
  rewrite bind_cons, length_app, Hf, IH. reflexivity.
Qed.

Lemma length_product pools :
  length (product pools) = prod_list (length <$> pools).
Proof.
  induction pools as [|pool pools IH]; [reflexivity|].
  cbn [product]. rewrite (length_bind_const _ _ (length (product pools))).
  - now rewrite IH.
  - intros x. apply length_fmap.
Qed.

Lemma elem_of_product pools : forall v,
  v ∈ product pools <-> Forall2 (fun x pool => x ∈ pool) v pools.
Proof.
  induction pools as [|pool pools IH]; intros v; cbn [product].
  - rewrite list_elem_of_singleton. split.
    + intros ->. constructor.
    + intros H. now inversion H.
  - rewrite list_elem_of_bind. split.
    + intros (x & Hv & Hx). apply list_elem_of_fmap in Hv as (w & -> & Hw).
      constructor; [assumption|]. now apply IH.
    + intros H. inversion H as [|x pool' w pools' Hx Hw]; subst.
      exists x. split; [|assumption].
      apply list_elem_of_fmap. exists w. split; [reflexivity|]. now apply IH.
Qed.

Lemma NoDup_product pools : Forall NoDup pools -> NoDup (product pools).
Proof.
  induction 1 as [|pool pools Hpool _ IH]; cbn [product].
  - apply NoDup_singleton.
  - apply NoDup_bind; [| |assumption].
    + intros x1 x2 w _ _ H1 H2.
      apply list_elem_of_fmap in H1 as (w1 & -> & _).
      apply list_elem_of_fmap in H2 as (w2 & E & _). congruence.
    + intros x _. apply NoDup_fmap_2; [|assumption].
      intros w1 w2 E. congruence.
Qed.

End Product.

(** ** Completeness and adjacency of [_graycode] *)

Section GrayComplete.

Lemma binary_vector_product n v :
  binary_vector n v <-> v ∈ product (replicate n [0; 1]).
Proof.
  rewrite elem_of_product. unfold binary_vector. revert v.
  induction n as [|n IH]; intros v; cbn [replicate].
  - split.
    + intros [Hlen _]. destruct v; [constructor|discriminate].
    + intros H. inversion H. split; [reflexivity|constructor].
  - split.
    + intros [Hlen Hall]. destruct v as [|b v]; [discriminate|].
      inversion Hall as [|? ? Hb Hv]; subst.
      constructor.
      * destruct Hb as [->| ->]; [left|right; left].
      * apply IH. split; [|assumption]. cbn in Hlen. congruence.
    + intros H. inversion H as [|b pool w pools Hb Hw]; subst.
      apply IH in Hw as [Hlen Hall]. split.
      * cbn. congruence.
      * constructor; [|assumption].
        apply elem_of_cons in Hb as [->|Hb]; [now left|].
        apply list_elem_of_singleton in Hb as ->. now right.
Qed.

Lemma count_binary_vectors n :
  length (product (replicate n [0; 1])) = (2 ^ n)%nat.
Proof.
  rewrite length_product. induction n as [|n IH]; [reflexivity|].
  change (prod_list (length <$> replicate (S n) [0; 1]))
    with (2 * prod_list (length <$> replicate n [0%Z; 1%Z]))%nat.
  rewrite IH. cbn. lia.
Qed.

Lemma bits_binary n x : binary_vector n (bits n x).
Proof.
  split; [apply length_bits|].
  unfold bits. apply Forall_fmap, Forall_forall. intros j _. cbn.
  destruct (Z.testbit x (Z.of_nat j)); [now right|now left].
Qed.

Lemma testbit_high n x j :
  0 <= x < 2 ^ Z.of_nat n -> Z.of_nat n <= j -> Z.testbit x j = false.
Proof.
  intros Hx Hj. rewrite <- (Z.mod_small x (2 ^ Z.of_nat n)) by lia.
  apply Z.mod_pow2_bits_high. lia.
Qed.

Lemma b2z_inj b c : Z.b2z b = Z.b2z c -> b = c.
Proof. now destruct b, c. Qed.

(** Distinct indices below [2^n] have distinct Gray code rows. *)
Lemma gray_bits_inj n x y :
  0 <= x < 2 ^ Z.of_nat n -> 0 <= y < 2 ^ Z.of_nat n ->
  bits n (gray x) = bits n (gray y) -> x = y.
Proof.
  intros Hx Hy Hbits.
  assert (Hg : forall j, (j < n)%nat ->
             Z.testbit (gray x) (Z.of_nat j) = Z.testbit (gray y) (Z.of_nat j)).
  { intros j Hj. apply b2z_inj.
    pose proof (lookup_bits n (gray x) j Hj) as H1.
    pose proof (lookup_bits n (gray y) j Hj) as H2.
    rewrite Hbits in H1. congruence. }
  assert (Hdown : forall k j, (n <= j + k)%nat ->
             Z.testbit x (Z.of_nat j) = Z.testbit y (Z.of_nat j)).
  { induction k as [|k IH]; intros j Hj.
    - now rewrite !(testbit_high n) by lia.
    - destruct (Nat.le_gt_cases n j) as [Hge|Hlt].
      + now rewrite !(testbit_high n) by lia.
      + pose proof (Hg j Hlt) as E. rewrite !gray_testbit in E by lia.
        pose proof (IH (S j) ltac:(lia)) as E1.
        replace (Z.of_nat (S j)) with (Z.of_nat j + 1) in E1 by lia.
        rewrite E1 in E. revert E.
        generalize (Z.testbit x (Z.of_nat j)) (Z.testbit y (Z.of_nat j))
                   (Z.testbit y (Z.of_nat j + 1)).
        intros [] [] []; cbn; congruence. }
  apply Z.bits_inj'. intros j Hj.
  specialize (Hdown n (Z.to_nat j) ltac:(lia)).
  now rewrite Z2Nat.id in Hdown by lia.
Qed.

Lemma length_gray_matrix n : length (gray_matrix n) = (2 ^ n)%nat.
Proof.
  unfold gray_matrix. rewrite length_fmap, length_seq.
  rewrite <- (Nat2Z.id (2 ^ n)). f_equal. rewrite Nat2Z.inj_pow. reflexivity.
Qed.

Lemma lookup_gray_matrix n i :
  (i < 2 ^ n)%nat -> gray_matrix n !! i = Some (bits n (gray (Z.of_nat i))).
Proof.
  intros Hi. unfold gray_matrix. rewrite list_lookup_fmap, lookup_seq_lt; [reflexivity|].
  pose proof (length_gray_matrix n) as H. unfold gray_matrix in H.
  rewrite length_fmap, length_seq in H. lia.
Qed.

Lemma NoDup_gray_matrix n : NoDup (gray_matrix n).
Proof.
  unfold gray_matrix. apply NoDup_fmap_2_strong; [|apply NoDup_seq].
  intros i j Hi Hj E.
  apply elem_of_seq in Hi, Hj.
  apply Nat2Z.inj. apply (gray_bits_inj n); [lia|lia|exact E].
Qed.

Lemma gray_matrix_binary n row : row ∈ gray_matrix n -> binary_vector n row.
Proof.
  unfold gray_matrix. intros (i & -> & _)%list_elem_of_fmap. apply bits_binary.
Qed.

(** Every 0/1 vector of length [n] is a row: the rows are [2^n] distinct
    vectors among the [2^n] that exist. *)
Lemma gray_matrix_covers n v : binary_vector n v -> v ∈ gray_matrix n.
Proof.
  intros Hv.
  assert (Hperm : gray_matrix n ≡ₚ product (replicate n [0; 1])).
  { apply submseteq_length_Permutation.
    - apply NoDup_submseteq; [apply NoDup_gray_matrix|].
      intros row Hrow. now apply binary_vector_product, gray_matrix_binary.
    - now rewrite count_binary_vectors, length_gray_matrix. }
  rewrite Hperm. now apply binary_vector_product.
Qed.

End GrayComplete.

(** C3 - completeness of the Binary/Spin Enumerator. For every model, with
    [n] its number of variables ([n >= 0]), [_graycode] returns a matrix
    with exactly [2^n] rows; the rows are pairwise distinct 0/1 vectors of
    length [n]; and every 0/1 vector of length [n] is the row of exactly one
    index. *)
Theorem graycode_complete (bqm : BinaryQuadraticModel) (junk : nat -> nat -> Z) :
  let n := length (bqm_variables bqm) in
  exists samples,
    Graycode._graycode bqm junk = Ok samples /\
    length samples = (2 ^ n)%nat /\
    NoDup samples /\
    (forall row, row ∈ samples -> binary_vector n row) /\
    (forall v, binary_vector n v ->
       exists i, samples !! i = Some v /\
                 forall j, samples !! j = Some v -> j = i).
Proof.
  intros n. exists (gray_matrix n). split; [apply graycode_closed_form|].
  split; [apply length_gray_matrix|].
  split; [apply NoDup_gray_matrix|].
  split; [apply gray_matrix_binary|].
  intros v Hv. apply gray_matrix_covers in Hv.
  apply list_elem_of_lookup in Hv as [i Hi]. exists i. split; [assumption|].
  intros j Hj. eapply NoDup_lookup; [apply NoDup_gray_matrix| |]; eassumption.
Qed.

Lemma graycode_complete_witness :
  exists samples i,
    Graycode._graycode ising_ab (fun _ _ => 7) = Ok samples /\
    samples !! i = Some [1; 1].
Proof.
  destruct (graycode_complete ising_ab (fun _ _ => 7))
    as (samples & Hrun & _ & _ & _ & Hcover).
  destruct (Hcover [1; 1]) as (i & Hi & _).
  - split; [reflexivity|]. repeat constructor; now right.
  - exists samples, i. split; assumption.
Defined.

(** C4 - Gray-code adjacency. In the matrix returned by [_graycode], row 0
    is the all-zero vector and, for every [i >= 1], row [i] differs from
    row [i - 1] in exactly one coordinate [v], which is the index of the
    lowest set bit of [i]. *)
Theorem graycode_adjacent (bqm : BinaryQuadraticModel) (junk : nat -> nat -> Z) :
  let n := length (bqm_variables bqm) in
  exists samples,
    Graycode._graycode bqm junk = Ok samples /\
    samples !! 0%nat = Some (replicate n 0) /\
    forall i, (1 <= i < 2 ^ n)%nat ->
      exists prev row v,
        samples !! (i - 1)%nat = Some prev /\
        samples !! i = Some row /\
        (v < n)%nat /\
        Z.testbit (Z.of_nat i) (Z.of_nat v) = true /\
        (forall j, (j < v)%nat -> Z.testbit (Z.of_nat i) (Z.of_nat j) = false) /\
        (forall j, row !! j <> prev !! j <-> j = v).
Proof.
  intros n. exists (gray_matrix n). split; [apply graycode_closed_form|].
  split.
  { assert (0 < 2 ^ n)%nat by (pose proof (Nat.pow_nonzero 2 n); lia).
    rewrite lookup_gray_matrix by assumption.
    cbn. unfold gray. cbn. now rewrite bits_zero. }
  intros i Hi.
  assert (Hpos : exists p, Z.of_nat i = Zpos p).
  { destruct (Z.of_nat i) as [|p|p] eqn:E; try lia. now exists p. }
  destruct Hpos as [p Hp].
  assert (Hv : (pos_ctz p < n)%nat).
  { pose proof (ctz_lt_log (Zpos p) n) as H. cbn in H. apply H.
    assert (Z.of_nat (2 ^ n) = 2 ^ Z.of_nat n)
      by (rewrite Nat2Z.inj_pow; reflexivity).
    lia. }
  exists (bits n (gray (Zpos p - 1))), (bits n (gray (Zpos p))), (pos_ctz p).
  split.
  { rewrite lookup_gray_matrix by lia. do 3 f_equal. lia. }
  split.
  { rewrite lookup_gray_matrix by lia. now rewrite Hp. }
  split; [assumption|].
  split; [rewrite Hp; apply testbit_ctz|].
  split; [intros j Hj; rewrite Hp; apply testbit_below_ctz; lia|].
  intros j. rewrite <- (bits_gray_flip n p Hv).
  destruct (Nat.eq_dec j (pos_ctz p)) as [->|Hne].
  - rewrite list_lookup_insert_eq by (now rewrite length_bits).
    rewrite lookup_bits by assumption. split; [reflexivity|].
    intros _ E.
    destruct (Z.testbit (gray (Z.pos p - 1)) (Z.of_nat (pos_ctz p))); discriminate.
  - rewrite list_lookup_insert_ne by congruence. split; [congruence|].
    intros ->. congruence.
Qed.

Lemma graycode_adjacent_witness :
  exists samples prev row v,
    Graycode._graycode ising_ab (fun _ _ => 7) = Ok samples /\
    samples !! 2%nat = Some prev /\ samples !! 3%nat = Some row /\
    (forall j, row !! j <> prev !! j <-> j = v).
Proof.
  destruct (graycode_adjacent ising_ab (fun _ _ => 7))
    as (samples & Hrun & _ & Hstep).
  destruct (Hstep 3%nat) as (prev & row & v & Hprev & Hrow & _ & _ & _ & Hdiff).
  - cbn. lia.
  - exists samples, prev, row, v. repeat split; try assumption; apply Hdiff.
Defined.

(** ** The two-spin Ising example *)

(** C9 - the two-variable spin model with h = {a: -0.5, b: 1.0} and
    J = {(a,b): -1.5}. [ExactSolver.sample] returns the four spin
    assignments in Gray-code order, (-1,-1), (+1,-1), (+1,+1), (-1,+1), each
    with its Ising energy; listed by increasing energy, as the docstring
    prints them, (-1,-1), (+1,+1), (+1,-1), (-1,+1) have the energies -2,
    -1, 0 and 3. *)
Theorem ising_ab_sample (junk : nat -> nat -> Z) :
  exists ss,
    ExactSolver.sample ising_ab junk = Ok ss /\
    ss_variables ss = ["a"; "b"]%string /\
    ss_samples ss = [[-1; -1]; [1; -1]; [1; 1]; [-1; 1]] /\
    Forall2 Qeq (ss_energy ss) [-2; 0; -1; 3]%Q /\
    Forall2 (fun row e => exists i, ss_samples ss !! i = Some row /\
                                    exists e', ss_energy ss !! i = Some e' /\
                                               (e' == e)%Q)
      [[-1; -1]; [1; 1]; [1; -1]; [-1; 1]] [-2; -1; 0; 3]%Q.
Proof.
  unfold ExactSolver.sample.
  change (length (bqm_variables ising_ab) =? 0)%nat with false. cbv iota.
  rewrite graycode_closed_form. cbn [bind].
  eexists. split; [reflexivity|].
  split; [reflexivity|].
  split; [reflexivity|].
  split.
  - repeat constructor.
  - repeat constructor.
    + exists 0%nat. split; [reflexivity|]. eexists. split; [reflexivity|]. reflexivity.
    + exists 2%nat. split; [reflexivity|]. eexists. split; [reflexivity|]. reflexivity.
    + exists 1%nat. split; [reflexivity|]. eexists. split; [reflexivity|]. reflexivity.
    + exists 3%nat. split; [reflexivity|]. eexists. split; [reflexivity|]. reflexivity.
Qed.

(** ** Models without variables *)

(** C8 - empty models. For a model with zero variables each entry point
    returns, without raising, a result with zero samples and zero
    energies. *)
Theorem empty_model_empty_result :
  (forall bqm junk, bqm_variables bqm = [] ->
     exists ss, ExactSolver.sample bqm junk = Ok ss /\
                ss_samples ss = [] /\ ss_energy ss = []) /\
  (forall dqm, dqm_variables dqm = [] ->
     exists ss, ExactDQMSolver.sample_dqm dqm = Ok ss /\
                ss_samples ss = [] /\ ss_energy ss = []) /\
  (forall cqm rtol atol, cqm_variables cqm = [] ->
     exists ss, ExactCQMSolver.sample_cqm cqm rtol atol = Ok ss /\
                ss_samples ss = [] /\ ss_energy ss = []).
Proof.
  split; [|split].
  - intros bqm junk Hvars. unfold ExactSolver.sample. rewrite Hvars. cbn.
    eexists. repeat split.
  - intros dqm Hvars. unfold ExactDQMSolver.sample_dqm. rewrite Hvars. cbn.
    eexists. repeat split.
  - intros cqm rtol atol Hvars. unfold ExactCQMSolver.sample_cqm.
    rewrite Hvars. cbn. eexists. repeat split.
Qed.

Lemma empty_model_empty_result_witness :
  (exists ss, ExactSolver.sample empty_bqm (fun _ _ => 0) = Ok ss /\
              ss_samples ss = [] /\ ss_energy ss = []) /\
  (exists ss, ExactDQMSolver.sample_dqm empty_dqm = Ok ss /\
              ss_samples ss = [] /\ ss_energy ss = []) /\
  (exists ss, ExactCQMSolver.sample_cqm empty_cqm 0%Q 0%Q = Ok ss /\
              ss_samples ss = [] /\ ss_energy ss = []).
Proof.
  destruct empty_model_empty_result as (Hbqm & Hdqm & Hcqm).
  split; [|split].
  - apply Hbqm. reflexivity.
  - apply Hdqm. reflexivity.
  - apply Hcqm. reflexivity.
Defined.

(** ** Feasibility evaluation in [sample_cqm] *)

Section Feasibility.

Lemma mapM_seq_lookup {A B : Type} (g : A -> B) (f : nat -> result B) :
  forall (l : list A) (k : nat),
  (forall i x, l !! i = Some x -> f (k + i)%nat = Ok (g x)) ->
  mapM f (seq k (length l)) = Ok (g <$> l).
Proof.
  induction l as [|x l IH]; intros k Hf; [reflexivity|].
  cbn [length seq mapM].
  pose proof (Hf 0%nat x eq_refl) as H0. rewrite Nat.add_0_r in H0.
  rewrite H0. cbn [bind]. rewrite (IH (S k)); [reflexivity|].
  intros i y Hy. rewrite <- (Hf (S i) y Hy). f_equal. lia.
Qed.

(** Once the enumeration has succeeded, so does the evaluation. *)
Lemma sample_cqm_closed_form cqm rtol atol rows labels :
  cqm_variables cqm <> [] ->
  ExactCQMSolver._all_cases_cqm cqm = Ok (rows, labels) ->
  ExactCQMSolver.sample_cqm cqm rtol atol =
    Ok (from_samples rows labels INTEGER
          (cqm_objective_energy cqm labels <$> rows)
          (Some (py_all <$> (satisfied_flags cqm rtol atol labels <$> rows)))
          (Some (satisfied_flags cqm rtol atol labels <$> rows))).
Proof.
  intros Hne Hcases. unfold ExactCQMSolver.sample_cqm.
  destruct (cqm_variables cqm) as [|v vs] eqn:Hv; [congruence|].
  cbn [length Nat.eqb]. rewrite Hcases. cbn [bind fst snd].
  rewrite (mapM_seq_lookup (satisfied_flags cqm rtol atol labels)); [reflexivity|].
  intros i row Hrow. unfold ExactCQMSolver.satisfied_row. cbn [fst snd Nat.add].
  rewrite Hrow. cbn [of_option bind].
  rewrite list_lookup_fmap, Hrow. cbn [fmap option_fmap option_map of_option bind].
  unfold iter_violations, satisfied_flags. rewrite <- list_fmap_compose.
  reflexivity.
Qed.





End Feasibility.







(** ** The grid built with [np.meshgrid], [.T] and [reshape] *)

Section ListMonad.

Context {A B C : Type}.

Lemma fmap_bind (f : B -> C) (g : A -> list B) (l : list A) :
  f <$> (l ≫= g) = l ≫= (fun x => f <$> g x).
Proof.
  induction l as [|x l IH]; [reflexivity|].
  now rewrite !bind_cons, fmap_app, IH.
Qed.

Lemma bind_bind (g : A -> list B) (h : B -> list C) (l : list A) :
  (l ≫= g) ≫= h = l ≫= (fun x => g x ≫= h).
Proof.
  induction l as [|x l IH]; [reflexivity|].
  now rewrite !bind_cons, bind_app, IH.
Qed.

Lemma bind_singleton_fmap (f : A -> B) (l : list A) :
  l ≫= (fun x => [f x]) = f <$> l.
Proof.
  induction l as [|x l IH]; [reflexivity|].
  now rewrite bind_cons, fmap_cons, IH.
Qed.

End ListMonad.

Section ProductSnoc.

Context {A : Type}.

(** The last pool of a product advances fastest. *)
Lemma product_snoc (pools : list (list A)) (pool : list A) :
  product (pools ++ [pool])
  = product pools ≫= (fun t => (fun x => t ++ [x]) <$> pool).
Proof.
  induction pools as [|p pools IH].
  - cbn [app product]. rewrite bind_singleton.
    rewrite <- (bind_singleton_fmap (fun x => [] ++ [x])).
    apply list_bind_ext; [|reflexivity]. intros x. reflexivity.
  - cbn [app product]. rewrite IH, bind_bind.
    apply list_bind_ext; [|reflexivity]. intros x.
    rewrite fmap_bind, list_fmap_bind.
    apply list_bind_ext; [|reflexivity]. intros t.
    cbn. rewrite <- list_fmap_compose. reflexivity.
Qed.

End ProductSnoc.

Section Chunks.

Lemma chunks_bind {A : Type} (g : A -> list Z) (cols : nat) (l : list A) :
  (forall x, length (g x) = cols) ->
  Numpy.chunks (length l) cols (l ≫= g) = g <$> l.
Proof.
  intros Hg. induction l as [|x l IH]; [reflexivity|].
  cbn [length Numpy.chunks]. rewrite bind_cons, fmap_cons.
  rewrite take_app_length', drop_app_length' by (symmetry; apply Hg).
  now rewrite IH.
Qed.

End Chunks.

Section PermutedSizes.

Lemma prod_list_app l k : prod_list (l ++ k) = (prod_list l * prod_list k)%nat.
Proof.
  induction l as [|x l IH].
  - change (prod_list k = (1 * prod_list k)%nat). lia.
  - change (x * prod_list (l ++ k) = (x * prod_list l) * prod_list k)%nat.
    rewrite IH. lia.
Qed.

Lemma prod_list_reverse l : prod_list (reverse l) = prod_list l.
Proof.
  induction l as [|x l IH]; [reflexivity|].
  rewrite reverse_cons, prod_list_app, IH.
  change (prod_list l * (x * 1) = x * prod_list l)%nat. lia.
Qed.

Lemma prod_list_swap01 l : prod_list (Numpy.swap01 l) = prod_list l.
Proof.
  destruct l as [|a [|b l]]; try reflexivity.
  change (b * (a * prod_list l) = a * (b * prod_list l))%nat. lia.
Qed.

Lemma swap01_involutive {A : Type} (l : list A) :
  Numpy.swap01 (Numpy.swap01 l) = l.
Proof. now destruct l as [|a [|b l]]. Qed.

Lemma swap01_short {A : Type} (l : list A) :
  (length l <= 1)%nat -> Numpy.swap01 l = l.
Proof. destruct l as [|a [|b l]]; cbn; [reflexivity|reflexivity|lia]. Qed.

Lemma length_swap01 {A : Type} (l : list A) : length (Numpy.swap01 l) = length l.
Proof. now destruct l as [|a [|b l]]. Qed.

Lemma Forall2_swap01 {A B : Type} (P : A -> B -> Prop) l k :
  Forall2 P l k -> Forall2 P (Numpy.swap01 l) (Numpy.swap01 k).
Proof.
  intros H. destruct H as [|a b l k Hab H]; [constructor|].
  destruct H as [|a' b' l k Hab' H]; cbn; repeat constructor; assumption.
Qed.

Lemma length_indices shape : length (Numpy.indices shape) = prod_list shape.
Proof.
  unfold Numpy.indices. rewrite length_product. f_equal.
  rewrite <- list_fmap_compose. induction shape as [|d shape IH]; [reflexivity|].
  cbn. rewrite length_seq. now f_equal.
Qed.

Lemma elem_of_indices shape idx :
  idx ∈ Numpy.indices shape <-> Forall2 (fun i d => (i < d)%nat) idx shape.
Proof.
  unfold Numpy.indices. rewrite elem_of_product, Forall2_fmap_r.
  split; intros H; (eapply Forall2_impl; [exact H|]); intros i d; cbn;
    rewrite elem_of_seq; lia.
Qed.

Lemma NoDup_indices shape : NoDup (Numpy.indices shape).
Proof.
  unfold Numpy.indices. apply NoDup_product, Forall_fmap, Forall_forall.
  intros d _. apply NoDup_seq.
Qed.

(** An index of the transposed grid is in range exactly when the tuple of
    positions it stands for is in range. *)
Lemma Forall2_transposed {A B : Type} (P : A -> B -> Prop) idx shape :
  Forall2 P idx (reverse (Numpy.swap01 shape)) <->
  Forall2 P (Numpy.swap01 (reverse idx)) shape.
Proof.
  split; intros H.
  - apply Forall2_reverse, Forall2_swap01 in H.
    now rewrite reverse_involutive, swap01_involutive in H.
  - apply Forall2_swap01, Forall2_reverse in H.
    now rewrite swap01_involutive, reverse_involutive in H.
Qed.

End PermutedSizes.

Section MeshgridReshape.

Implicit Types (pools : list (list Z)) (pool : list Z).

Lemma xy_swap01 {A : Type} (m : nat) (l : list A) :
  length l = m ->
  (if (1 <? m)%nat then Numpy.swap01 l else l) = Numpy.swap01 l.
Proof.
  intros Hl. destruct (Nat.ltb_spec 1 m); [reflexivity|].
  symmetry. apply swap01_short. lia.
Qed.

Lemma meshgrid_lookup pools k pool :
  pools !! k = Some pool ->
  Numpy.meshgrid pools !! k
  = Some {| Numpy.shape :=
              if (1 <? length pools)%nat then Numpy.swap01 (length <$> pools)
              else length <$> pools;
            Numpy.item := fun idx =>
              default 0
                (pool !! default 0%nat
                   ((if (1 <? length pools)%nat then Numpy.swap01 idx else idx)
                      !! k)) |}.
Proof.
  intros Hk. unfold Numpy.meshgrid. rewrite list_lookup_imap, Hk. reflexivity.
Qed.

Lemma length_meshgrid pools : length (Numpy.meshgrid pools) = length pools.
Proof. unfold Numpy.meshgrid. apply length_imap. Qed.

Lemma array_meshgrid_shape pools :
  pools <> [] ->
  Numpy.shape (Numpy.array (Numpy.meshgrid pools))
  = length pools :: Numpy.swap01 (length <$> pools).
Proof.
  intros Hne.
  destruct (lookup_lt_is_Some_2 pools 0) as [pool Hpool].
  { destruct pools; [congruence|cbn; lia]. }
  pose proof (meshgrid_lookup pools 0 pool Hpool) as H0.
  pose proof (length_meshgrid pools) as Hlen.
  destruct (Numpy.meshgrid pools) as [|a arrays]; [discriminate|].
  cbn [Numpy.array Numpy.shape]. injection H0 as ->. cbn [Numpy.shape].
  rewrite Hlen. f_equal. apply xy_swap01, length_fmap.
Qed.

Lemma array_meshgrid_item pools k idx pool :
  pools !! k = Some pool ->
  length idx = length pools ->
  Numpy.item (Numpy.array (Numpy.meshgrid pools)) (k :: idx)
  = default 0 (pool !! default 0%nat (Numpy.swap01 idx !! k)).
Proof.
  intros Hk Hidx. pose proof (meshgrid_lookup pools k pool Hk) as Hlook.
  destruct (Numpy.meshgrid pools) as [|a arrays]; [discriminate|].
  cbn [Numpy.array Numpy.item]. rewrite Hlook. cbn -[Nat.ltb].
  now rewrite xy_swap01.
Qed.

(** The row of the reshaped grid that belongs to a leading index. *)
Lemma transposed_row pools idx :
  length idx = length pools ->
  (fun k => Numpy.item (Numpy.T (Numpy.array (Numpy.meshgrid pools))) (idx ++ [k]))
    <$> seq 0 (length pools)
  = pick pools (Numpy.swap01 (reverse idx)).
Proof.
  intros Hidx. apply list_eq. intros k.
  unfold pick. rewrite list_lookup_fmap, lookup_zip_with.
  destruct (Nat.lt_ge_cases k (length pools)) as [Hk|Hk].
  - rewrite lookup_seq_lt by assumption.
    destruct (lookup_lt_is_Some_2 pools k Hk) as [pool Hpool].
    destruct (lookup_lt_is_Some_2 (Numpy.swap01 (reverse idx)) k) as [i Hi].
    { now rewrite length_swap01, length_reverse, Hidx. }
    rewrite Hpool, Hi. cbn. f_equal.
    rewrite reverse_snoc.
    rewrite (array_meshgrid_item pools k (reverse idx) pool Hpool)
      by (now rewrite length_reverse).
    now rewrite Hi.
  - rewrite lookup_seq_ge by assumption.
    now rewrite (lookup_ge_None_2 pools) by assumption.
Qed.

(** [np.array(np.meshgrid(pools...)).T.reshape(-1, len(pools))] never
    raises when there is at least one pool, and its rows are [grid_rows]. *)
Lemma meshgrid_reshape pools :
  pools <> [] ->
  Numpy.reshape_rows (Numpy.T (Numpy.array (Numpy.meshgrid pools))) (length pools)
  = Ok (grid_rows pools).
Proof.
  intros Hne.
  set (m := length pools).
  assert (Hm : (0 < m)%nat).
  { subst m. destruct pools; [congruence|cbn; lia]. }
  set (ds := reverse (Numpy.swap01 (length <$> pools))).
  set (arr := Numpy.T (Numpy.array (Numpy.meshgrid pools))).
  set (g := fun idx => (fun k => Numpy.item arr (idx ++ [k])) <$> seq 0 m).
  assert (Hravel : Numpy.ravel arr = Numpy.indices ds ≫= g).
  { unfold Numpy.ravel, arr at 2. cbn [Numpy.T Numpy.shape].
    rewrite array_meshgrid_shape by assumption.
    rewrite reverse_cons. fold ds.
    unfold Numpy.indices. rewrite fmap_app. cbn [fmap list_fmap].
    rewrite product_snoc, fmap_bind.
    apply list_bind_ext; [|reflexivity]. intros idx.
    unfold g. now rewrite <- list_fmap_compose. }
  assert (Hg : forall idx, length (g idx) = m).
  { intros idx. unfold g. now rewrite length_fmap, length_seq. }
  unfold Numpy.reshape_rows.
  destruct (Nat.eqb_spec m 0) as [|_]; [lia|].
  rewrite Hravel, (length_bind_const g _ m Hg).
  rewrite Nat.Div0.mod_mul. cbn [Nat.eqb negb].
  rewrite Nat.div_mul by lia. rewrite (chunks_bind g m _ Hg).
  f_equal. unfold grid_rows. fold ds.
  apply list_fmap_ext. intros i idx Hidx.
  unfold g, arr. apply transposed_row.
  apply list_elem_of_lookup_2, elem_of_indices, Forall2_length in Hidx.
  rewrite Hidx. unfold ds.
  now rewrite length_reverse, length_swap01, length_fmap.
Qed.

End MeshgridReshape.

(** ** The rows of the grid are the Cartesian product *)

Section GridRows.

Implicit Types (pools : list (list Z)) (pos : list nat) (row : list Z).

Lemma elem_of_pick pools : forall row,
  Forall2 (fun x pool => x ∈ pool) row pools <->
  exists pos, Forall2 (fun i n => (i < n)%nat) pos (length <$> pools) /\
              row = pick pools pos.
Proof.
  induction pools as [|pool pools IH]; intros row.
  - split.
    + intros H. apply Forall2_nil_inv_r in H as ->. exists []. split; constructor.
    + intros (pos & Hpos & ->). apply Forall2_nil_inv_r in Hpos as ->. constructor.
  - split.
    + intros H. apply Forall2_cons_inv_r in H as (x & w & Hx & Hw & ->).
      apply list_elem_of_lookup_1 in Hx as [i Hi].
      apply IH in Hw as (pos & Hpos & ->).
      exists (i :: pos). split.
      * rewrite fmap_cons. constructor; [|assumption].
        eapply lookup_lt_Some; eassumption.
      * cbn. now rewrite Hi.
    + intros (pos & Hpos & ->). rewrite fmap_cons in Hpos.
      apply Forall2_cons_inv_r in Hpos as (i & pos' & Hi & Hpos' & ->).
      destruct (lookup_lt_is_Some_2 pool i Hi) as [x Hx].
      cbn. rewrite Hx. constructor.
      * eapply list_elem_of_lookup_2; eassumption.
      * apply IH. now exists pos'.
Qed.

Lemma pick_inj pools : forall pos pos',
  Forall NoDup pools ->
  Forall2 (fun i n => (i < n)%nat) pos (length <$> pools) ->
  Forall2 (fun i n => (i < n)%nat) pos' (length <$> pools) ->
  pick pools pos = pick pools pos' -> pos = pos'.
Proof.
  induction pools as [|pool pools IH]; intros pos pos' Hnd Hpos Hpos' E.
  - apply Forall2_nil_inv_r in Hpos as ->.
    now apply Forall2_nil_inv_r in Hpos' as ->.
  - rewrite fmap_cons in Hpos, Hpos'.
    apply Forall2_cons_inv_r in Hpos as (i & p & Hi & Hp & ->).
    apply Forall2_cons_inv_r in Hpos' as (i' & p' & Hi' & Hp' & ->).
    inversion Hnd as [|? ? Hpool Hpools]; subst.
    destruct (lookup_lt_is_Some_2 pool i Hi) as [x Hx].
    destruct (lookup_lt_is_Some_2 pool i' Hi') as [x' Hx'].
    cbn in E. rewrite Hx, Hx' in E. cbn in E. injection E as -> E.
    f_equal.
    + eapply NoDup_lookup; eassumption.
    + now apply IH.
Qed.

Lemma length_grid_rows pools :
  length (grid_rows pools) = prod_list (length <$> pools).
Proof.
  unfold grid_rows.
  now rewrite length_fmap, length_indices, prod_list_reverse, prod_list_swap01.
Qed.

Lemma elem_of_grid_rows pools row :
  row ∈ grid_rows pools <-> row ∈ product pools.
Proof.
  rewrite elem_of_product, elem_of_pick. unfold grid_rows.
  rewrite list_elem_of_fmap. split.
  - intros (idx & -> & Hidx). eexists. split; [|reflexivity].
    now apply Forall2_transposed, elem_of_indices.
  - intros (pos & Hpos & ->). exists (reverse (Numpy.swap01 pos)). split.
    + now rewrite reverse_involutive, swap01_involutive.
    + apply elem_of_indices, Forall2_transposed.
      now rewrite reverse_involutive, swap01_involutive.
Qed.

Lemma NoDup_grid_rows pools : Forall NoDup pools -> NoDup (grid_rows pools).
Proof.
  intros Hnd. unfold grid_rows.
  apply NoDup_fmap_2_strong; [|apply NoDup_indices].
  intros idx idx' Hidx Hidx' E.
  apply elem_of_indices, Forall2_transposed in Hidx, Hidx'.
  apply (pick_inj pools _ _ Hnd Hidx Hidx') in E.
  apply (f_equal Numpy.swap01) in E. rewrite !swap01_involutive in E.
  apply (f_equal reverse) in E. now rewrite !reverse_involutive in E.
Qed.


End GridRows.

(** ** [range] *)

Section Range.

Lemma length_range lo hi : length (range lo hi) = Z.to_nat (hi - lo).
Proof. unfold range. now rewrite length_fmap, length_seq. Qed.

Lemma elem_of_range lo hi x : x ∈ range lo hi <-> lo <= x < hi.
Proof.
  unfold range. rewrite list_elem_of_fmap. split.
  - intros (i & -> & Hi). apply elem_of_seq in Hi. lia.
  - intros Hx. exists (Z.to_nat (x - lo)). split; [lia|].
    apply elem_of_seq. lia.
Qed.

Lemma NoDup_range lo hi : NoDup (range lo hi).
Proof.
  unfold range. apply NoDup_fmap_2; [|apply NoDup_seq].
  intros i j E. lia.
Qed.

End Range.

(** ** [_all_cases_dqm] *)

(** C5, as amended - discrete completeness. For every discrete model with
    at least one variable, whose variables have positive case counts
    [k_1, ..., k_m], [_all_cases_dqm] returns a matrix with exactly
    [k_1 * ... * k_m] rows, without duplicates, whose rows are exactly the
    tuples with an entry in [0 .. k_v - 1] for each variable [v]. *)
Theorem all_cases_dqm_complete (dqm : DiscreteQuadraticModel) :
  dqm_variables dqm <> [] ->
  Forall (fun v => (0 < dqm_num_cases dqm v)%nat) (dqm_variables dqm) ->
  exists rows,
    ExactDQMSolver._all_cases_dqm dqm = Ok (rows, dqm_variables dqm) /\
    length rows = prod_list (dqm_num_cases dqm <$> dqm_variables dqm) /\
    NoDup rows /\
    forall row,
      row ∈ rows <->
      Forall2 (fun x v => 0 <= x < Z.of_nat (dqm_num_cases dqm v))
        row (dqm_variables dqm).
Proof.
  intros Hne _.
  set (cases := (fun v => range 0 (Z.of_nat (dqm_num_cases dqm v)))
                  <$> dqm_variables dqm).
  assert (Hcases : cases <> []).
  { unfold cases. destruct (dqm_variables dqm); [congruence|discriminate]. }
  exists (grid_rows cases). split.
  { unfold ExactDQMSolver._all_cases_dqm. fold cases.
    replace (length (dqm_variables dqm)) with (length cases)
      by (unfold cases; apply length_fmap).
    now rewrite meshgrid_reshape. }
  split.
  { rewrite length_grid_rows. f_equal. unfold cases.
    rewrite <- list_fmap_compose. apply list_fmap_ext. intros i v _.
    cbn. rewrite length_range. lia. }
  split.
  { apply NoDup_grid_rows. unfold cases.
    apply Forall_fmap, Forall_forall. intros v _. apply NoDup_range. }
  intros row. rewrite elem_of_grid_rows, elem_of_product. unfold cases.
  rewrite Forall2_fmap_r.
  split; intros H; (eapply Forall2_impl; [exact H|]); intros x v; cbn;
    rewrite elem_of_range; lia.
Qed.

Lemma all_cases_dqm_complete_witness :
  exists rows,
    ExactDQMSolver._all_cases_dqm dqm_3_2 = Ok (rows, dqm_variables dqm_3_2) /\
    length rows = 6%nat /\
    NoDup rows /\
    [2; 1] ∈ rows.
Proof.
  destruct (all_cases_dqm_complete dqm_3_2) as (rows & Hrun & Hlen & Hnd & Hin).
  - discriminate.
  - repeat constructor.
  - exists rows. split; [assumption|]. split; [exact Hlen|].
    split; [assumption|]. apply Hin.
    repeat constructor; cbn; lia.
Defined.

(** C5 as stated fails for the model without variables: its case counts
    are (vacuously) positive and their product is 1, but [_all_cases_dqm]
    raises on an empty variable list (the reshape to zero columns is
    refused), and [sample_dqm], which guards the call, returns zero rows. *)
Lemma all_cases_dqm_no_variables :
  Forall (fun v => (0 < dqm_num_cases empty_dqm v)%nat) (dqm_variables empty_dqm) /\
  prod_list (dqm_num_cases empty_dqm <$> dqm_variables empty_dqm) = 1%nat /\
  ExactDQMSolver._all_cases_dqm empty_dqm = Raise ValueError /\
  (exists ss, ExactDQMSolver.sample_dqm empty_dqm = Ok ss /\
              length (ss_samples ss) = 0%nat) /\
  ~ (exists rows,
       ExactDQMSolver._all_cases_dqm empty_dqm
         = Ok (rows, dqm_variables empty_dqm) /\
       length rows
         = prod_list (dqm_num_cases empty_dqm <$> dqm_variables empty_dqm)).
Proof.
  split; [constructor|]. split; [reflexivity|]. split; [reflexivity|].
  split; [eexists; split; reflexivity|].
  intros (rows & Hrun & _). discriminate.
Qed.

(** ** [_all_cases_cqm] *)

Section Loops.

Lemma foldM_app {S A : Type} (body : S -> A -> result S) (xs ys : list A) :
  forall s, foldM body s (xs ++ ys) = (s' <- foldM body s xs ;; foldM body s' ys).
Proof.
  induction xs as [|x xs IH]; intros s; [reflexivity|].
  cbn [app foldM]. destruct (body s x) as [s'|e]; [|reflexivity].
  cbn [bind]. apply IH.
Qed.

Lemma mapM_Forall2 {A B : Type} (f : A -> result B) (l : list A) :
  forall l', mapM f l = Ok l' <-> Forall2 (fun x y => f x = Ok y) l l'.
Proof.
  induction l as [|x l IH]; intros l'; cbn [mapM].
  - split.
    + intros [= <-]. constructor.
    + intros H. now apply Forall2_nil_inv_l in H as ->.
  - destruct (f x) as [y|e] eqn:Hx; cbn [bind].
    + destruct (mapM f l) as [ys|e] eqn:Hl; cbn [bind].
      * split.
        -- intros [= <-]. constructor; [assumption|]. now apply IH.
        -- intros H. apply Forall2_cons_inv_l in H as (y' & k & Hy & Hk & ->).
           apply IH in Hk. congruence.
      * split; [discriminate|].
        intros H. apply Forall2_cons_inv_l in H as (y' & k & Hy & Hk & ->).
        apply IH in Hk. discriminate.
    + split; [discriminate|].
      intros H. apply Forall2_cons_inv_l in H as (y' & k & Hy & Hk & ->).
      congruence.
Qed.

Lemma mapM_total {A B : Type} (f : A -> result B) (l : list A) :
  (forall x, x ∈ l -> exists y, f x = Ok y) -> exists l', mapM f l = Ok l'.
Proof.
  induction l as [|x l IH]; intros Hf; [now exists []|].
  destruct (Hf x) as [y Hy]; [left|].
  destruct IH as [ys Hys]; [intros z Hz; apply Hf; now right|].
  exists (y :: ys). cbn [mapM]. now rewrite Hy, Hys.
Qed.

Lemma mapM_raise {A B : Type} (f : A -> result B) (l : list A) (e : exn) :
  (forall x e', f x = Raise e' -> e' = e) ->
  (exists x, x ∈ l /\ f x = Raise e) -> mapM f l = Raise e.
Proof.
  intros Honly. induction l as [|x l IH]; intros (z & Hz & Hraise).
  - now apply elem_of_nil in Hz.
  - cbn [mapM]. destruct (f x) as [y|e'] eqn:Hx; cbn [bind].
    + apply elem_of_cons in Hz as [->|Hz]; [congruence|].
      rewrite IH; [reflexivity|]. now exists z.
    + f_equal. eauto.
Qed.

End Loops.

Section CqmLoops.

Implicit Types (sizes : list nat) (indexes : list Z).

Lemma elem_of_group_choices sizes indexes :
  indexes ∈ group_choices sizes <-> in_groups sizes indexes.
Proof.
  unfold group_choices, in_groups. rewrite elem_of_product, Forall2_fmap_r.
  split; intros H; (eapply Forall2_impl; [exact H|]); intros ix d; cbn;
    rewrite elem_of_range; lia.
Qed.

Lemma length_group_choices sizes :
  length (group_choices sizes) = prod_list sizes.
Proof.
  unfold group_choices. rewrite length_product. f_equal.
  rewrite <- list_fmap_compose.
  rewrite <- (list_fmap_id sizes) at 2.
  apply list_fmap_ext. intros i d _. cbn. rewrite length_range. lia.
Qed.

Lemma set_one_hot d ix :
  0 <= ix < Z.of_nat d ->
  set_item1 (np_zeros d) ix 1 = Ok (one_hot_vector d ix).
Proof.
  intros Hix. unfold set_item1, np_zeros, one_hot_vector.
  rewrite length_replicate.
  rewrite <- (Z2Nat.id ix) at 1 by lia.
  rewrite np_index_ok by lia. reflexivity.
Qed.

Lemma one_hot_row_prefix sizes indexes :
  in_groups sizes indexes ->
  forall n, (n <= length indexes)%nat ->
  foldM (fun l i =>
           d <- of_option IndexError (sizes !! i) ;;
           ix <- of_option IndexError (indexes !! i) ;;
           s <- set_item1 (np_zeros d) ix 1 ;;
           Ok (l ++ s))
        [] (seq 0 n)
  = Ok (one_hot_concat (take n sizes) (take n indexes)).
Proof.
  intros Hin. induction n as [|n IH]; intros Hn.
  - reflexivity.
  - rewrite seq_S, foldM_app, IH by lia. cbn [bind foldM Nat.add].
    destruct (lookup_lt_is_Some_2 indexes n ltac:(lia)) as [ix Hix].
    destruct (Forall2_lookup_l _ _ _ _ _ Hin Hix) as (d & Hd & Hrange).
    rewrite Hd, Hix. cbn [of_option bind].
    rewrite set_one_hot by assumption. cbn [bind].
    rewrite (take_S_r sizes n d Hd), (take_S_r indexes n ix Hix).
    unfold one_hot_concat. rewrite zip_with_app.
    + rewrite join_app. cbn. now rewrite app_nil_r.
    + rewrite !length_take. apply Forall2_length in Hin. lia.
Qed.

(** The inner loop never raises on a choice of cases. *)
Lemma one_hot_row_closed_form sizes indexes :
  in_groups sizes indexes ->
  ExactCQMSolver.one_hot_row sizes indexes = Ok (one_hot_concat sizes indexes).
Proof.
  intros Hin. unfold ExactCQMSolver.one_hot_row.
  rewrite (one_hot_row_prefix sizes indexes Hin) by lia.
  pose proof (Forall2_length _ _ _ Hin) as Hlen.
  now rewrite !take_ge by lia.
Qed.

(** The outer loop never raises on choices of cases and, with at least one
    group, never takes its [break]. *)
Lemma combine_closed_form sizes c1 : forall tuples acc,
  sizes <> [] ->
  Forall (in_groups sizes) tuples ->
  ExactCQMSolver.combine sizes c1 tuples acc
  = Ok (acc ++ (tuples ≫= (fun indexes =>
          match c1 with
          | [] => [one_hot_concat sizes indexes]
          | _ => (fun row => one_hot_concat sizes indexes ++ row) <$> c1
          end))).
Proof.
  induction tuples as [|indexes tuples IH]; intros acc Hne Hall.
  - cbn. now rewrite app_nil_r.
  - inversion Hall as [|? ? Hin Hrest]; subst.
    cbn [ExactCQMSolver.combine].
    pose proof (Forall2_length _ _ _ Hin) as Hlen.
    destruct (Nat.eqb_spec (length indexes) 0) as [Hz|_].
    { destruct sizes; [congruence|]. cbn in Hlen. lia. }
    rewrite one_hot_row_closed_form by assumption. cbn [bind].
    rewrite IH by assumption. rewrite bind_cons, app_assoc. do 2 f_equal.
    destruct c1; reflexivity.
Qed.

End CqmLoops.

Section CqmClosedForm.

Lemma mapM_length {A B : Type} (f : A -> result B) (l : list A) (l' : list B) :
  mapM f l = Ok l' -> length l' = length l.
Proof. intros H. apply mapM_Forall2, Forall2_length in H. congruence. Qed.

Lemma free_rows_closed_form (cases : list (list Z)) (m : nat) :
  length cases = m ->
  (if negb (m =? 0)%nat
   then Numpy.reshape_rows (Numpy.T (Numpy.array (Numpy.meshgrid cases))) m
   else Ok (Numpy.rows (Numpy.array (Numpy.meshgrid cases))))
  = Ok (free_rows cases).
Proof.
  intros <-. destruct cases as [|pool cases]; [reflexivity|].
  cbn [length Nat.eqb negb free_rows].
  now apply (meshgrid_reshape (pool :: cases)).
Qed.

Lemma combine_choices (sizes : list nat) (c1 : matrix) :
  ExactCQMSolver.combine sizes c1
    (product ((fun d => range 0 (Z.of_nat d)) <$> sizes)) []
  = Ok match sizes with
       | [] => []
       | _ => group_choices sizes ≫= (fun indexes =>
                match c1 with
                | [] => [one_hot_concat sizes indexes]
                | _ => (fun row => one_hot_concat sizes indexes ++ row) <$> c1
                end)
       end.
Proof.
  destruct sizes as [|d sizes]; [reflexivity|].
  fold (group_choices (d :: sizes)).
  rewrite combine_closed_form; [reflexivity|discriminate|].
  apply Forall_forall. intros indexes. apply elem_of_group_choices.
Qed.

(** [_all_cases_cqm] raises only through [_iterator_by_vartype]; when
    every free-form variable has a domain, it returns [joined_rows]. *)
Lemma all_cases_cqm_closed_form cqm cases :
  mapM (ExactCQMSolver._iterator_by_vartype cqm) (free_variables cqm) = Ok cases ->
  ExactCQMSolver._all_cases_cqm cqm
  = Ok (joined_rows (group_sizes cqm) cases,
        discrete_variables cqm ++ free_variables cqm).
Proof.
  intros Hcases. unfold ExactCQMSolver._all_cases_cqm. cbv zeta.
  fold (discrete_variables cqm). fold (free_variables cqm).
  fold (group_sizes cqm).
  rewrite Hcases. cbn [bind].
  rewrite (free_rows_closed_form cases) by (eapply mapM_length; eassumption).
  cbn [bind]. rewrite combine_choices. cbn [bind].
  f_equal. f_equal. unfold joined_rows. cbv zeta.
  destruct (match group_sizes cqm with [] => [] | _ => _ end); reflexivity.
Qed.

Lemma all_cases_cqm_raise cqm e :
  mapM (ExactCQMSolver._iterator_by_vartype cqm) (free_variables cqm) = Raise e ->
  ExactCQMSolver._all_cases_cqm cqm = Raise e.
Proof.
  intros Hcases. unfold ExactCQMSolver._all_cases_cqm. cbv zeta.
  fold (discrete_variables cqm). fold (free_variables cqm).
  now rewrite Hcases.
Qed.

End CqmClosedForm.

Section JoinedRows.

Implicit Types (sizes : list nat) (pools : list (list Z)).

Lemma prod_list_pos (l : list nat) :
  Forall (fun k => (0 < k)%nat) l -> (0 < prod_list l)%nat.
Proof.
  induction 1 as [|k l Hk _ IH]; [cbn; lia|].
  change (0 < k * prod_list l)%nat. nia.
Qed.

Lemma pool_sizes_pos pools :
  Forall (fun pool => pool <> []) pools ->
  Forall (fun k => (0 < k)%nat) (length <$> pools).
Proof.
  intros H. apply Forall_fmap. eapply Forall_impl; [exact H|].
  intros pool Hne. cbn. destruct pool; [congruence|cbn; lia].
Qed.

Lemma length_one_hot_vector d ix : length (one_hot_vector d ix) = d.
Proof. unfold one_hot_vector. now rewrite length_insert, length_replicate. Qed.




(** Without groups the result is [c1]. *)
Lemma joined_rows_no_groups pools : joined_rows [] pools = free_rows pools.
Proof. reflexivity. Qed.

(** Without free-form variables the result is the rows of the groups. *)
Lemma joined_rows_no_pools sizes :
  sizes <> [] -> joined_rows sizes [] = discrete_rows sizes.
Proof.
  intros Hne. unfold joined_rows, discrete_rows. cbn [free_rows].
  destruct sizes as [|d sizes]; [congruence|].
  rewrite bind_singleton_fmap.
  now destruct (one_hot_concat (d :: sizes) <$> group_choices (d :: sizes)).
Qed.

(** Groups and free-form rows: every choice of cases is joined with every
    free-form row. *)
Lemma joined_rows_both sizes pools :
  sizes <> [] -> Forall (fun k => (0 < k)%nat) sizes ->
  pools <> [] -> Forall (fun pool => pool <> []) pools ->
  joined_rows sizes pools
  = group_choices sizes ≫= (fun indexes =>
      (fun row => one_hot_concat sizes indexes ++ row) <$> grid_rows pools).
Proof.
  intros Hs Hpos Hp Hne. unfold joined_rows.
  assert (Hfree : free_rows pools = grid_rows pools)
    by (destruct pools; [congruence|reflexivity]).
  rewrite Hfree. cbv zeta.
  pose proof (length_grid_rows pools) as Hlen.
  pose proof (prod_list_pos _ (pool_sizes_pos _ Hne)) as Hpools.
  pose proof (prod_list_pos _ Hpos) as Hsizes.
  rewrite <- length_group_choices in Hsizes.
  destruct sizes as [|d sizes]; [congruence|].
  destruct (grid_rows pools) as [|row rows] eqn:Hgrid; [cbn in Hlen; lia|].
  destruct (group_choices (d :: sizes)) as [|t ts]; [cbn in Hsizes; lia|].
  reflexivity.
Qed.



End JoinedRows.

Section Iterators.

Lemma iterator_supported cqm v :
  supported (cqm_vartype cqm v) ->
  exists dom, ExactCQMSolver._iterator_by_vartype cqm v = Ok dom.
Proof.
  unfold supported, ExactCQMSolver._iterator_by_vartype.
  intros [H|[H|H]]; rewrite H; cbn; eauto.
Qed.

Lemma iterator_unsupported cqm v :
  ~ supported (cqm_vartype cqm v) ->
  ExactCQMSolver._iterator_by_vartype cqm v = Raise ValueError.
Proof.
  unfold supported, ExactCQMSolver._iterator_by_vartype. intros H.
  destruct (cqm_vartype cqm v); cbn; try reflexivity; exfalso; apply H; auto.
Qed.

Lemma iterator_raise cqm v e :
  ExactCQMSolver._iterator_by_vartype cqm v = Raise e -> e = ValueError.
Proof.
  unfold ExactCQMSolver._iterator_by_vartype.
  repeat case_decide; intros; congruence.
Qed.


(** A model with variables has a one-hot group or a free-form variable. *)
Lemma group_or_free cqm :
  cqm_variables cqm <> [] -> group_sizes cqm <> [] \/ free_variables cqm <> [].
Proof.
  intros Hvars.
  destruct (cqm_discrete cqm) as [|d ds] eqn:Hd.
  - right. unfold free_variables, discrete_variables. rewrite Hd.
    destruct (cqm_variables cqm) as [|v vs]; [congruence|].
    rewrite filter_cons. destruct (decide _) as [|Hin]; [discriminate|].
    exfalso. apply Hin. cbn. apply not_elem_of_empty.
  - left. unfold group_sizes. rewrite Hd. discriminate.
Qed.

End Iterators.




(** C7 - unsupported domain. If some free-form variable has a kind other
    than Binary, Spin or Integer, [sample_cqm] raises [ValueError] instead
    of returning a result; and if every free-form variable has one of these
    kinds, no call of [_iterator_by_vartype] raises and [sample_cqm]
    returns a result. *)
Theorem unsupported_domain (cqm : ConstrainedQuadraticModel) (rtol atol : Q) :
  ((exists v, v ∈ free_variables cqm /\ ~ supported (cqm_vartype cqm v)) ->
   ExactCQMSolver.sample_cqm cqm rtol atol = Raise ValueError) /\
  ((forall v, v ∈ free_variables cqm -> supported (cqm_vartype cqm v)) ->
   (forall v, v ∈ free_variables cqm ->
      exists dom, ExactCQMSolver._iterator_by_vartype cqm v = Ok dom) /\
   exists ss, ExactCQMSolver.sample_cqm cqm rtol atol = Ok ss).
Proof.
  split.
  - intros (v & Hv & Hbad).
    assert (Hvars : cqm_variables cqm <> []).
    { unfold free_variables in Hv. apply list_elem_of_filter in Hv as [_ Hv].
      intros E. rewrite E in Hv. now apply elem_of_nil in Hv. }
    unfold ExactCQMSolver.sample_cqm.
    destruct (cqm_variables cqm) as [|w ws] eqn:E; [congruence|].
    cbn [length Nat.eqb]. rewrite (all_cases_cqm_raise cqm ValueError); [reflexivity|].
    apply mapM_raise.
    + intros x e. apply iterator_raise.
    + exists v. split; [assumption|]. now apply iterator_unsupported.
  - intros Hall. split.
    + intros v Hv. apply iterator_supported. now apply Hall.
    + destruct (mapM_total (ExactCQMSolver._iterator_by_vartype cqm)
                  (free_variables cqm)) as [cases Hcases].
      { intros v Hv. apply iterator_supported. now apply Hall. }
      destruct (decide (cqm_variables cqm = [])) as [Hnil|Hvars].
      * unfold ExactCQMSolver.sample_cqm. rewrite Hnil. cbn. eauto.
      * eexists. eapply sample_cqm_closed_form; [assumption|].
        apply (all_cases_cqm_closed_form cqm cases Hcases).
Qed.

Lemma unsupported_domain_witness :
  ExactCQMSolver.sample_cqm cqm_unsupported 0%Q 0%Q = Raise ValueError /\
  exists ss, ExactCQMSolver.sample_cqm cqm_xyz 0%Q 0%Q = Ok ss.
Proof.
  split.
  - apply (proj1 (unsupported_domain cqm_unsupported 0%Q 0%Q)).
    exists "w"%string. split.
    + vm_compute. repeat constructor.
    + intros [H|[H|H]]; discriminate.
  - apply (proj2 (unsupported_domain cqm_xyz 0%Q 0%Q)).
    intros v _. now left.
Defined.

(** * Further properties of the solvers *)

(** ** The matrix of [_graycode], entry by entry *)

(** X1 - [_graycode] never raises and never reads the uninitialised
    contents of [np.empty]: whatever they are, entry [(i, j)] of the
    returned matrix is bit [j] of [i xor (i >> 1)]. *)
Theorem graycode_entries (bqm : BinaryQuadraticModel) (junk : nat -> nat -> Z) :
  let n := length (bqm_variables bqm) in
  exists samples,
    Graycode._graycode bqm junk = Ok samples /\
    (forall junk', Graycode._graycode bqm junk' = Ok samples) /\
    forall i j, (i < 2 ^ n)%nat -> (j < n)%nat ->
      exists row,
        samples !! i = Some row /\
        row !! j
        = Some (Z.b2z (Z.testbit (Z.lxor (Z.of_nat i) (Z.shiftr (Z.of_nat i) 1))
                                 (Z.of_nat j))).
Proof.
  intros n. exists (gray_matrix n).
  split; [apply graycode_closed_form|].
  split; [intros junk'; apply graycode_closed_form|].
  intros i j Hi Hj. exists (bits n (gray (Z.of_nat i))).
  split; [now apply lookup_gray_matrix|].
  now rewrite lookup_bits.
Qed.

Lemma graycode_entries_witness :
  exists samples row,
    Graycode._graycode ising_ab (fun _ _ => 5) = Ok samples /\
    Graycode._graycode ising_ab (fun _ _ => 9) = Ok samples /\
    samples !! 2%nat = Some row /\ row !! 1%nat = Some 1.
Proof.
  destruct (graycode_entries ising_ab (fun _ _ => 5)) as (samples & Hrun & Hany & Hbit).
  destruct (Hbit 2%nat 1%nat) as (row & Hrow & Hj); [cbn; lia|cbn; lia|].
  exists samples, row. repeat split; [assumption|apply Hany|assumption|exact Hj].
Defined.

Section GrayCycle.

Lemma bits_gray_last n :
  (0 < n)%nat ->
  bits n (gray (2 ^ Z.of_nat n - 1)) = <[(n - 1)%nat := 1]> (replicate n 0).
Proof.
  intros Hn. apply list_eq. intros j.
  destruct (Nat.lt_ge_cases j n) as [Hj|Hj].
  - rewrite lookup_bits, gray_testbit by lia.
    replace (2 ^ Z.of_nat n - 1) with (Z.ones (Z.of_nat n))
      by (rewrite Z.ones_equiv; lia).
    rewrite Z.ones_spec_low by lia.
    destruct (Nat.eq_dec j (n - 1)%nat) as [->|Hne].
    + rewrite Z.ones_spec_high by lia.
      rewrite list_lookup_insert_eq by (rewrite length_replicate; lia).
      reflexivity.
    + rewrite Z.ones_spec_low by lia.
      rewrite list_lookup_insert_ne by congruence.
      now rewrite lookup_replicate_2.
  - rewrite !lookup_ge_None_2; [reflexivity| |];
      now rewrite ?length_insert, ?length_replicate, ?length_bits.
Qed.

End GrayCycle.

(** X2 - the Gray code of [_graycode] is cyclic. With at least one
    variable, the last row has a single 1, at the last variable, so it
    differs from row 0 in exactly that coordinate. *)
Theorem graycode_cyclic (bqm : BinaryQuadraticModel) (junk : nat -> nat -> Z) :
  let n := length (bqm_variables bqm) in
  bqm_variables bqm <> [] ->
  exists samples first last,
    Graycode._graycode bqm junk = Ok samples /\
    samples !! 0%nat = Some first /\
    samples !! (2 ^ n - 1)%nat = Some last /\
    last = <[(n - 1)%nat := 1]> (replicate n 0) /\
    forall j, last !! j <> first !! j <-> j = (n - 1)%nat.
Proof.
  intros n Hne.
  assert (Hn : (0 < n)%nat).
  { subst n. destruct (bqm_variables bqm); [congruence|cbn; lia]. }
  assert (Hpow : (0 < 2 ^ n)%nat) by (pose proof (Nat.pow_nonzero 2 n); lia).
  exists (gray_matrix n), (replicate n 0), (<[(n - 1)%nat := 1]> (replicate n 0)).
  split; [apply graycode_closed_form|].
  split.
  { rewrite lookup_gray_matrix by assumption. cbn. unfold gray. cbn.
    now rewrite bits_zero. }
  split.
  { rewrite lookup_gray_matrix by lia. rewrite <- bits_gray_last by assumption.
    do 3 f_equal. rewrite Nat2Z.inj_sub by lia.
    rewrite Nat2Z.inj_pow. reflexivity. }
  split; [reflexivity|].
  intros j. destruct (Nat.eq_dec j (n - 1)%nat) as [->|Hj].
  - rewrite list_lookup_insert_eq by (rewrite length_replicate; lia).
    rewrite lookup_replicate_2 by lia. split; [reflexivity|discriminate].
  - rewrite list_lookup_insert_ne by congruence. split; congruence.
Qed.

Lemma graycode_cyclic_witness :
  exists samples,
    Graycode._graycode ising_ab (fun _ _ => 5) = Ok samples /\
    samples !! 3%nat = Some [0; 1].
Proof.
  destruct (graycode_cyclic ising_ab (fun _ _ => 5))
    as (samples & first & last & Hrun & _ & Hlast & -> & _).
  - discriminate.
  - exists samples. split; [assumption|exact Hlast].
Defined.

(** ** [ExactSolver.sample] *)

(** The map [2*samples - 1] of [ExactSolver.sample] on one row, in [int8]
    arithmetic, and the map back. *)
Definition spin_row (row : list Z) : list Z :=
  (fun x => wrap8 (wrap8 (2 * x) - 1)) <$> row.

Definition binary_row (row : list Z) : list Z :=
  (fun s => (s + 1) / 2) <$> row.

(** A -1/+1 vector of length [n]. *)
Definition spin_vector (n : nat) (v : list Z) : Prop :=
  length v = n /\ Forall (fun s => s = -1 \/ s = 1) v.

Section SpinMap.

Lemma binary_spin_row row :
  Forall (fun b => b = 0 \/ b = 1) row -> binary_row (spin_row row) = row.
Proof.
  unfold binary_row, spin_row. induction 1 as [|b row Hb _ IH]; [reflexivity|].
  rewrite !fmap_cons, IH. f_equal. destruct Hb as [->| ->]; reflexivity.
Qed.

Lemma spin_binary_row row :
  Forall (fun s => s = -1 \/ s = 1) row -> spin_row (binary_row row) = row.
Proof.
  unfold binary_row, spin_row. induction 1 as [|s row Hs _ IH]; [reflexivity|].
  rewrite !fmap_cons, IH. f_equal. destruct Hs as [->| ->]; reflexivity.
Qed.

Lemma spin_row_spin n row : binary_vector n row -> spin_vector n (spin_row row).
Proof.
  intros [Hlen Hall]. split; [unfold spin_row; now rewrite length_fmap|].
  unfold spin_row. apply Forall_fmap. eapply Forall_impl; [exact Hall|].
  intros b [->| ->]; cbn; [now left|now right].
Qed.

Lemma binary_row_binary n row : spin_vector n row -> binary_vector n (binary_row row).
Proof.
  intros [Hlen Hall]. split; [unfold binary_row; now rewrite length_fmap|].
  unfold binary_row. apply Forall_fmap. eapply Forall_impl; [exact Hall|].
  intros s [->| ->]; cbn; [now left|now right].
Qed.

(** [ExactSolver.sample] never raises; this is what it returns. *)
Lemma sample_closed_form bqm junk :
  ExactSolver.sample bqm junk =
  Ok (if (length (bqm_variables bqm) =? 0)%nat
      then from_samples [] [] (bqm_vartype bqm) [] None None
      else from_samples_bqm
             (if decide (bqm_vartype bqm = SPIN)
              then spin_row <$> gray_matrix (length (bqm_variables bqm))
              else gray_matrix (length (bqm_variables bqm)))
             (bqm_variables bqm) bqm).
Proof.
  unfold ExactSolver.sample.
  destruct (length (bqm_variables bqm) =? 0)%nat; [reflexivity|].
  rewrite graycode_closed_form. reflexivity.
Qed.

End SpinMap.



(** X4 - spin models. For a spin model with [n >= 1] variables the
    remapping [2*samples - 1] stays inside [int8] and the samples of
    [ExactSolver.sample] are exactly the [2^n] vectors of length [n] over
    -1 and +1, each one once, starting from the all -1 vector. *)
Theorem sample_spin_complete (bqm : BinaryQuadraticModel)
    (junk : nat -> nat -> Z) :
  let n := length (bqm_variables bqm) in
  bqm_vartype bqm = SPIN ->
  bqm_variables bqm <> [] ->
  exists ss,
    ExactSolver.sample bqm junk = Ok ss /\
    length (ss_samples ss) = (2 ^ n)%nat /\
    NoDup (ss_samples ss) /\
    ss_samples ss !! 0%nat = Some (replicate n (-1)) /\
    forall row, row ∈ ss_samples ss <-> spin_vector n row.
Proof.
  intros n Hspin Hne. rewrite sample_closed_form. fold n.
  destruct (Nat.eqb_spec n 0) as [Hz|Hnz].
  { subst n. destruct (bqm_variables bqm); [congruence|discriminate]. }
  destruct (decide (bqm_vartype bqm = SPIN)); [|congruence].
  eexists. split; [reflexivity|]. cbn.
  split; [now rewrite length_fmap, length_gray_matrix|].
  split.
  { apply NoDup_fmap_2_strong; [|apply NoDup_gray_matrix].
    intros x y Hx Hy E.
    apply gray_matrix_binary in Hx as [_ Hx], Hy as [_ Hy].
    rewrite <- (binary_spin_row x Hx), <- (binary_spin_row y Hy).
    now rewrite E. }
  split.
  { rewrite list_lookup_fmap.
    assert (0 < 2 ^ n)%nat by (pose proof (Nat.pow_nonzero 2 n); lia).
    rewrite lookup_gray_matrix by assumption. cbn. f_equal.
    unfold gray. cbn. rewrite bits_zero. unfold spin_row.
    now rewrite fmap_replicate. }
  intros row. rewrite list_elem_of_fmap. split.
  - intros (g & -> & Hg). now apply spin_row_spin, gray_matrix_binary.
  - intros Hrow. exists (binary_row row). split.
    + symmetry. apply spin_binary_row. apply Hrow.
    + now apply gray_matrix_covers, binary_row_binary.
Qed.

Lemma sample_spin_complete_witness :
  exists ss,
    ExactSolver.sample ising_ab (fun _ _ => 5) = Ok ss /\
    [1; -1] ∈ ss_samples ss.
Proof.
  destruct (sample_spin_complete ising_ab (fun _ _ => 5))
    as (ss & Hrun & _ & _ & _ & Hin).
  - reflexivity.
  - discriminate.
  - exists ss. split; [assumption|]. apply Hin.
    split; [reflexivity|].
    constructor; [now right|]. constructor; [now left|]. constructor.
Defined.

(** ** [ExactPolySolver] *)

(** A binary polynomial, as far as the solver reads it: its variables, its
    variable type and, as a parameter, the energy of one assignment
    ([polynomial.energies] evaluates it on every row of a batch). *)
Record BinaryPolynomial : Type := mk_Poly {
  poly_variables : list string;
  poly_vartype : Vartype;
  poly_energy : list string -> list Z -> Q
}.

(** What [ExactSolver.sample] and [_graycode] read of their argument.
    Python hands them any object with these attributes: a binary quadratic
    model or, from [ExactPolySolver.sample_poly], a binary polynomial. *)
Class SampledModel (M : Type) : Type := {
  model_variables : M -> list string;
  model_vartype : M -> Vartype;
  model_energy : M -> list string -> list Z -> Q
}.

Global Instance bqm_sampled : SampledModel BinaryQuadraticModel :=
  {| model_variables := bqm_variables;
     model_vartype := bqm_vartype;
     model_energy := bqm_energy |}.

Global Instance poly_sampled : SampledModel BinaryPolynomial :=
  {| model_variables := poly_variables;
     model_vartype := poly_vartype;
     model_energy := poly_energy |}.

Module AnyModel.

(** [_graycode(bqm)] for any such argument. *)
Definition _graycode {M : Type} `{SampledModel M} (bqm : M)
    (junk : nat -> nat -> Z) : result matrix :=
  let n := length (model_variables bqm) in
  let ns := Z.shiftl 1 (Z.of_nat n) in
  let samples := np_empty (Z.to_nat ns) n junk in
  samples <- set_row_const samples 0 0 ;;
  for_range (fun i s => Graycode.step s i) 1 (Z.to_nat (ns - 1)) samples.

(** [ExactSolver.sample(bqm)] for any such argument; the last line is
    [SampleSet.from_samples_bqm((samples, list(bqm.variables)), bqm)], which
    evaluates the energy of the argument on every row. *)
Definition sample {M : Type} `{SampledModel M} (bqm : M)
    (junk : nat -> nat -> Z) : result SampleSet :=
  if (length (model_variables bqm) =? 0)%nat then
    Ok (from_samples [] [] (model_vartype bqm) [] None None)
  else
    samples <- _graycode bqm junk ;;
    let samples : matrix :=
      if decide (model_vartype bqm = SPIN)
      then (fun row : list Z => (fun x => wrap8 (wrap8 (2 * x) - 1)) <$> row)
             <$> samples
      else samples in
    Ok (from_samples samples (model_variables bqm) (model_vartype bqm)
          (model_energy bqm (model_variables bqm) <$> samples) None None).

End AnyModel.

Module ExactPolySolver.


End ExactPolySolver.

Section AnyModelFacts.

(** On a binary quadratic model the two readings of [sample] and of
    [_graycode] are the same function. *)
Lemma any_model_graycode_bqm (bqm : BinaryQuadraticModel) junk :
  AnyModel._graycode bqm junk = Graycode._graycode bqm junk.
Proof. reflexivity. Qed.

Lemma any_model_sample_bqm (bqm : BinaryQuadraticModel) junk :
  AnyModel.sample bqm junk = ExactSolver.sample bqm junk.
Proof. reflexivity. Qed.


End AnyModelFacts.




(** ** The domains of [_iterator_by_vartype] *)

Section IntegerDomain.

Lemma py_int_inject_Z (q : Q) (z : Z) : (q == inject_Z z)%Q -> py_int q = z.
Proof.
  unfold Qeq, py_int. cbn. intros H. rewrite Z.mul_1_r in H. rewrite H.
  apply Z.quot_mul. lia.
Qed.

End IntegerDomain.

(** X6 - Integer domains. For an Integer variable whose bounds hold the
    integers [lo] and [hi], [_iterator_by_vartype] returns the integers from
    [lo] to [hi], both included, in increasing order; when [hi < lo] this is
    the empty domain, not an error. *)
Theorem iterator_integer_domain (cqm : ConstrainedQuadraticModel) (v : string)
    (lo hi : Z) :
  cqm_vartype cqm v = INTEGER ->
  (cqm_lower_bound cqm v == inject_Z lo)%Q ->
  (cqm_upper_bound cqm v == inject_Z hi)%Q ->
  exists dom,
    ExactCQMSolver._iterator_by_vartype cqm v = Ok dom /\
    length dom = Z.to_nat (hi - lo + 1) /\
    (forall i, (i < length dom)%nat -> dom !! i = Some (lo + Z.of_nat i)) /\
    (forall x, x ∈ dom <-> lo <= x <= hi).
Proof.
  intros Hint Hlo Hhi. unfold ExactCQMSolver._iterator_by_vartype.
  rewrite Hint. cbn.
  rewrite (py_int_inject_Z _ lo Hlo).
  rewrite (py_int_inject_Z _ (hi + 1))
    by (rewrite Hhi, inject_Z_plus; reflexivity).
  eexists. split; [reflexivity|].
  split; [rewrite length_range; f_equal; lia|].
  split.
  - intros i Hi. rewrite length_range in Hi. unfold range.
    now rewrite list_lookup_fmap, lookup_seq_lt by lia.
  - intros x. rewrite elem_of_range. lia.
Qed.

Lemma iterator_integer_domain_witness :
  exists dom,
    ExactCQMSolver._iterator_by_vartype cqm_mixed "i" = Ok dom /\
    length dom = 2%nat /\ (forall x, x ∈ dom <-> 3 <= x <= 4).
Proof.
  destruct (iterator_integer_domain cqm_mixed "i" 3 4)
    as (dom & Hrun & Hlen & _ & Hin); try reflexivity.
  exists dom. split; [assumption|]. split; [exact Hlen|exact Hin].
Defined.

(** ** More on the matrix of [_all_cases_cqm] *)

Section JoinedRowsContents.

Implicit Types (sizes : list nat) (pools : list (list Z)).

Lemma length_discrete_variables cqm :
  length (discrete_variables cqm) = sum_list (group_sizes cqm).
Proof.
  unfold discrete_variables, group_sizes.
  induction (cqm_discrete cqm) as [|d ds IH]; [reflexivity|].
  rewrite bind_cons, length_app, fmap_cons, IH. reflexivity.
Qed.

Lemma length_one_hot_concat sizes indexes :
  in_groups sizes indexes ->
  length (one_hot_concat sizes indexes) = sum_list sizes.
Proof.
  unfold in_groups. induction 1 as [|ix d indexes sizes _ _ IH]; [reflexivity|].
  change (one_hot_concat (d :: sizes) (ix :: indexes))
    with (one_hot_vector d ix ++ one_hot_concat sizes indexes).
  rewrite length_app, length_one_hot_vector, IH. reflexivity.
Qed.




Lemma prod_list_zero (l : list nat) : 0%nat ∈ l -> prod_list l = 0%nat.
Proof.
  induction l as [|k l IH]; intros Hin; [now apply elem_of_nil in Hin|].
  change (k * prod_list l = 0)%nat.
  apply elem_of_cons in Hin as [<-|Hin]; [reflexivity|].
  rewrite IH by assumption. lia.
Qed.

Lemma grid_rows_empty_pool pools : [] ∈ pools -> grid_rows pools = [].
Proof.
  intros Hin. apply length_zero_iff_nil.
  rewrite length_grid_rows. apply prod_list_zero.
  apply list_elem_of_fmap. now exists [].
Qed.

(** The rows of the result, one by one. *)
Lemma elem_of_joined_rows sizes pools row :
  sizes <> [] \/ pools <> [] ->
  Forall (fun k => (0 < k)%nat) sizes ->
  Forall (fun pool => pool <> []) pools ->
  row ∈ joined_rows sizes pools <->
  exists indexes free,
    in_groups sizes indexes /\ free ∈ product pools /\
    row = one_hot_concat sizes indexes ++ free.
Proof.
  intros Hsome Hpos Hne.
  destruct (decide (sizes = [])) as [->|Hs];
    destruct (decide (pools = [])) as [->|Hp].
  - destruct Hsome; congruence.
  - rewrite joined_rows_no_groups.
    replace (free_rows pools) with (grid_rows pools)
      by (destruct pools; [congruence|reflexivity]).
    rewrite elem_of_grid_rows. split.
    + intros Hrow. exists [], row. split; [constructor|]. now split.
    + intros (t & r & Ht & Hr & ->).
      apply Forall2_nil_inv_r in Ht as ->. exact Hr.
  - rewrite joined_rows_no_pools by assumption.
    unfold discrete_rows. rewrite list_elem_of_fmap. split.
    + intros (t & -> & Ht). exists t, [].
      split; [now apply elem_of_group_choices|].
      split; [left|now rewrite app_nil_r].
    + intros (t & r & Ht & Hr & ->). apply list_elem_of_singleton in Hr as ->.
      exists t. split; [now rewrite app_nil_r|now apply elem_of_group_choices].
  - rewrite joined_rows_both by assumption.
    rewrite list_elem_of_bind. split.
    + intros (t & Hrow & Ht). apply list_elem_of_fmap in Hrow as (r & -> & Hr).
      exists t, r. split; [now apply elem_of_group_choices|].
      split; [now apply elem_of_grid_rows|reflexivity].
    + intros (t & r & Ht & Hr & ->). exists t.
      split; [|now apply elem_of_group_choices].
      apply list_elem_of_fmap. exists r.
      split; [reflexivity|now apply elem_of_grid_rows].
Qed.



End JoinedRowsContents.



(** X8 - columns and labels agree. Under the same conditions every row of
    [_all_cases_cqm] has exactly one entry per returned label: the group
    variables first, group after group, then the free-form variables. *)
Theorem all_cases_cqm_aligned (cqm : ConstrainedQuadraticModel)
    (cases : list (list Z)) :
  cqm_variables cqm <> [] ->
  Forall (fun k => (0 < k)%nat) (group_sizes cqm) ->
  mapM (ExactCQMSolver._iterator_by_vartype cqm) (free_variables cqm) = Ok cases ->
  Forall (fun pool => pool <> []) cases ->
  exists rows labels,
    ExactCQMSolver._all_cases_cqm cqm = Ok (rows, labels) /\
    labels = discrete_variables cqm ++ free_variables cqm /\
    forall row, row ∈ rows -> length row = length labels.
Proof.
  intros Hvars Hpos Hcases Hne.
  assert (Hsome : group_sizes cqm <> [] \/ cases <> []).
  { destruct (group_or_free cqm Hvars) as [H|H]; [now left|right].
    pose proof (mapM_length _ _ _ Hcases) as Hlen.
    destruct (free_variables cqm); [congruence|]. destruct cases; discriminate. }
  exists (joined_rows (group_sizes cqm) cases),
         (discrete_variables cqm ++ free_variables cqm).
  split; [now apply all_cases_cqm_closed_form|].
  split; [reflexivity|].
  intros row Hrow.
  apply elem_of_joined_rows in Hrow as (t & r & Ht & Hr & ->); try assumption.
  rewrite !length_app, length_one_hot_concat, length_discrete_variables
    by assumption.
  f_equal. apply elem_of_product, Forall2_length in Hr. rewrite Hr.
  eapply mapM_length; eassumption.
Qed.

Lemma all_cases_cqm_aligned_witness :
  exists rows labels,
    ExactCQMSolver._all_cases_cqm cqm_mixed = Ok (rows, labels) /\
    length labels = 5%nat /\
    forall row, row ∈ rows -> length row = length labels.
Proof.
  destruct (all_cases_cqm_aligned cqm_mixed [[-1; 1]; [3; 4]])
    as (rows & labels & Hrun & Hlabels & Hlen).
  - discriminate.
  - repeat constructor.
  - reflexivity.
  - repeat constructor; discriminate.
  - exists rows, labels. split; [assumption|].
    split; [now rewrite Hlabels|assumption].
Defined.

(** X9 - no label is lost or repeated. If the variables of the model are
    pairwise distinct, the group variables are pairwise distinct and all of
    them are variables of the model, then the labels that [_all_cases_cqm]
    returns are a rearrangement of [cqm.variables]. *)
Theorem all_cases_cqm_labels (cqm : ConstrainedQuadraticModel)
    (cases : list (list Z)) :
  mapM (ExactCQMSolver._iterator_by_vartype cqm) (free_variables cqm) = Ok cases ->
  NoDup (cqm_variables cqm) ->
  NoDup (discrete_variables cqm) ->
  (forall v, v ∈ discrete_variables cqm -> v ∈ cqm_variables cqm) ->
  exists rows labels,
    ExactCQMSolver._all_cases_cqm cqm = Ok (rows, labels) /\
    NoDup labels /\
    labels ≡ₚ cqm_variables cqm.
Proof.
  intros Hcases Hvars Hdisc Hsub.
  exists (joined_rows (group_sizes cqm) cases),
         (discrete_variables cqm ++ free_variables cqm).
  split; [now apply all_cases_cqm_closed_form|].
  assert (Hnd : NoDup (discrete_variables cqm ++ free_variables cqm)).
  { apply NoDup_app. split; [assumption|]. split.
    - intros v Hv Hfree. unfold free_variables in Hfree.
      apply list_elem_of_filter in Hfree as [Hnot _].
      apply Hnot. now apply elem_of_list_to_set.
    - unfold free_variables. now apply NoDup_filter. }
  split; [assumption|].
  apply NoDup_Permutation; [assumption|assumption|].
  intros v. rewrite elem_of_app. unfold free_variables.
  rewrite list_elem_of_filter, elem_of_list_to_set. split.
  - intros [Hv|[_ Hv]]; [now apply Hsub|assumption].
  - intros Hv. destruct (decide (v ∈ discrete_variables cqm)); [now left|now right].
Qed.

Lemma all_cases_cqm_labels_witness :
  exists rows labels,
    ExactCQMSolver._all_cases_cqm cqm_mixed = Ok (rows, labels) /\
    labels ≡ₚ ["x"; "d0"; "d1"; "d2"; "i"]%string.
Proof.
  destruct (all_cases_cqm_labels cqm_mixed [[-1; 1]; [3; 4]])
    as (rows & labels & Hrun & _ & Hperm).
  - reflexivity.
  - apply (bool_decide_unpack _). vm_compute. exact I.
  - apply (bool_decide_unpack _). vm_compute. exact I.
  - intros v Hv. cbn in Hv.
    repeat (apply elem_of_cons in Hv as [->|Hv]); try (now apply elem_of_nil in Hv);
      cbn; repeat ((left; reflexivity) || right).
  - exists rows, labels. split; [assumption|exact Hperm].
Defined.

(** X10 - a free-form variable with an empty domain raises no error.
    Without one-hot groups [_all_cases_cqm] then returns a matrix without
    rows; with groups it returns the rows of the groups alone, each with one
    entry per group variable and none for the free-form variables, whose
    labels are returned all the same. *)
Theorem all_cases_cqm_empty_domain (cqm : ConstrainedQuadraticModel)
    (cases : list (list Z)) :
  mapM (ExactCQMSolver._iterator_by_vartype cqm) (free_variables cqm) = Ok cases ->
  [] ∈ cases ->
  (cqm_discrete cqm = [] ->
   ExactCQMSolver._all_cases_cqm cqm = Ok ([], free_variables cqm)) /\
  (cqm_discrete cqm <> [] ->
   ExactCQMSolver._all_cases_cqm cqm
     = Ok (discrete_rows (group_sizes cqm),
           discrete_variables cqm ++ free_variables cqm) /\
   free_variables cqm <> [] /\
   forall row, row ∈ discrete_rows (group_sizes cqm) ->
     length row = length (discrete_variables cqm)).
Proof.
  intros Hcases Hempty.
  assert (Hc : cases <> []).
  { intros ->. now apply elem_of_nil in Hempty. }
  assert (Hfree : free_rows cases = []).
  { replace (free_rows cases) with (grid_rows cases)
      by (destruct cases; [congruence|reflexivity]).
    now apply grid_rows_empty_pool. }
  rewrite (all_cases_cqm_closed_form cqm cases Hcases).
  split.
  - intros Hd. unfold discrete_variables, group_sizes. rewrite Hd. cbn [fmap list_fmap].
    rewrite joined_rows_no_groups, Hfree. reflexivity.
  - intros Hd. split; [|split].
    + do 2 f_equal. unfold joined_rows. rewrite Hfree. cbv zeta.
      assert (Hs : group_sizes cqm <> []).
      { unfold group_sizes. destruct (cqm_discrete cqm); [congruence|discriminate]. }
      destruct (group_sizes cqm) as [|d sizes] eqn:E; [congruence|].
      rewrite bind_singleton_fmap. unfold discrete_rows.
      now destruct (one_hot_concat (d :: sizes) <$> group_choices (d :: sizes)).
    + pose proof (mapM_length _ _ _ Hcases) as Hlen.
      intros Hf. rewrite Hf in Hlen. destruct cases; [congruence|discriminate].
    + intros row Hrow. unfold discrete_rows in Hrow.
      apply list_elem_of_fmap in Hrow as (t & -> & Ht).
      apply elem_of_group_choices in Ht.
      now rewrite length_one_hot_concat, length_discrete_variables.
Qed.

(** A model whose Integer variable has crossed bounds, beside a group. *)
Definition cqm_crossed : ConstrainedQuadraticModel :=
  {| cqm_variables := ["d0"; "d1"; "i"]%string;
     cqm_vartype := fun v => if decide (v = "i"%string) then INTEGER else BINARY;
     cqm_lower_bound := fun _ => 3%Q;
     cqm_upper_bound := fun _ => 1%Q;
     cqm_discrete := ["c"]%string;
     cqm_lhs_variables := fun _ => ["d0"; "d1"]%string;
     cqm_constraints := ["c"]%string;
     cqm_violation := fun _ _ _ => 0%Q;
     cqm_objective_energy := fun _ _ => 0%Q |}.

Lemma all_cases_cqm_empty_domain_witness :
  ExactCQMSolver._all_cases_cqm cqm_crossed
  = Ok ([[1; 0]; [0; 1]], ["d0"; "d1"; "i"]%string).
Proof.
  destruct (all_cases_cqm_empty_domain cqm_crossed [[]]) as [_ Hgroups].
  - reflexivity.
  - left.
  - destruct Hgroups as (Hrun & _ & _); [discriminate|]. exact Hrun.
Defined.

(** ** [ExactDQMSolver] *)

Section GridOrder.

Implicit Types (pools : list (list Z)).

Lemma fmap_lookup_seq (pool : list Z) :
  (fun i => default 0 (pool !! i)) <$> seq 0 (length pool) = pool.
Proof.
  apply list_eq. intros i. rewrite list_lookup_fmap.
  destruct (Nat.lt_ge_cases i (length pool)) as [Hi|Hi].
  - rewrite lookup_seq_lt by assumption. cbn.
    destruct (lookup_lt_is_Some_2 pool i Hi) as [x Hx]. now rewrite Hx.
  - rewrite lookup_seq_ge by assumption. cbn.
    now rewrite lookup_ge_None_2.
Qed.

(** Picking along the multi-indices in C order walks through the product
    of the pools in its own order. *)
Lemma pick_indices pools :
  pick pools <$> Numpy.indices (length <$> pools) = product pools.
Proof.
  unfold Numpy.indices. induction pools as [|pool pools IH]; [reflexivity|].
  rewrite !fmap_cons. cbn [product]. rewrite fmap_bind.
  rewrite <- (fmap_lookup_seq pool) at 2. rewrite list_fmap_bind.
  apply list_bind_ext; [|reflexivity]. intros i. cbn.
  rewrite <- IH, <- !list_fmap_compose. reflexivity.
Qed.

(** With one or two pools the transposition of the grid undoes the
    exchange of axes of [np.meshgrid]. *)
Lemma grid_rows_two pools :
  (length pools <= 2)%nat -> grid_rows pools = product pools.
Proof.
  intros Hlen. rewrite <- pick_indices. unfold grid_rows.
  assert (Hshape : reverse (Numpy.swap01 (length <$> pools)) = length <$> pools).
  { destruct pools as [|a [|b [|c pools]]]; try reflexivity. cbn in Hlen. lia. }
  rewrite Hshape. apply list_fmap_ext. intros k idx Hidx.
  apply list_elem_of_lookup_2, elem_of_indices, Forall2_length in Hidx.
  rewrite length_fmap in Hidx.
  destruct idx as [|i [|j [|l idx]]]; try reflexivity. cbn in Hidx. lia.
Qed.

End GridOrder.

(** X11 - [sample_dqm] never raises. Without variables it returns no
    sample; otherwise it returns as many samples as the product of the case
    counts (none as soon as a variable has no case), labelled with
    [dqm.variables], each with its energy at the same index, and every
    sample gives every variable one of its cases. *)
Theorem sample_dqm_shape (dqm : DiscreteQuadraticModel) :
  exists ss,
    ExactDQMSolver.sample_dqm dqm = Ok ss /\
    ss_variables ss = dqm_variables dqm /\
    ss_vartype ss = DISCRETE /\
    length (ss_samples ss)
      = match dqm_variables dqm with
        | [] => 0%nat
        | _ => prod_list (dqm_num_cases dqm <$> dqm_variables dqm)
        end /\
    ss_energy ss = dqm_energy dqm (dqm_variables dqm) <$> ss_samples ss /\
    forall row, row ∈ ss_samples ss ->
      Forall2 (fun x v => 0 <= x < Z.of_nat (dqm_num_cases dqm v))
        row (dqm_variables dqm).
Proof.
  unfold ExactDQMSolver.sample_dqm.
  destruct (dqm_variables dqm) as [|v vs] eqn:Hvars.
  - eexists. split; [reflexivity|]. cbn. repeat split.
    intros row Hrow. now apply elem_of_nil in Hrow.
  - cbn [length Nat.eqb]. unfold ExactDQMSolver._all_cases_dqm. rewrite Hvars.
    set (cases := (fun v => range 0 (Z.of_nat (dqm_num_cases dqm v))) <$> v :: vs).
    replace (length (v :: vs)) with (length cases)
      by (unfold cases; apply length_fmap).
    rewrite meshgrid_reshape by discriminate. cbn [bind fst snd].
    eexists. split; [reflexivity|]. cbn [ss_variables ss_vartype ss_samples
      ss_energy from_samples].
    split; [reflexivity|]. split; [reflexivity|].
    split.
    { rewrite length_grid_rows. f_equal. unfold cases.
      rewrite <- list_fmap_compose. apply list_fmap_ext. intros i w _.
      cbn. rewrite length_range. lia. }
    split; [reflexivity|].
    intros row Hrow. apply elem_of_grid_rows, elem_of_product in Hrow.
    unfold cases in Hrow. rewrite Forall2_fmap_r in Hrow.
    eapply Forall2_impl; [exact Hrow|]. intros x w. cbn.
    rewrite elem_of_range. lia.
Qed.

Lemma sample_dqm_shape_witness :
  exists ss,
    ExactDQMSolver.sample_dqm dqm_2_3_2 = Ok ss /\
    length (ss_samples ss) = 12%nat /\
    ss_variables ss = ["u"; "v"; "w"]%string.
Proof.
  destruct (sample_dqm_shape dqm_2_3_2) as (ss & Hrun & Hvars & _ & Hlen & _).
  exists ss. repeat split; [assumption|exact Hlen|exact Hvars].
Defined.

(** X12 - row order of [_all_cases_dqm]. With one or two variables the
    rows come in the order of [itertools.product] over the case ranges: the
    first variable changes slowest, the last one fastest. *)
Theorem all_cases_dqm_order (dqm : DiscreteQuadraticModel) :
  dqm_variables dqm <> [] ->
  (length (dqm_variables dqm) <= 2)%nat ->
  ExactDQMSolver._all_cases_dqm dqm
  = Ok (product ((fun v => range 0 (Z.of_nat (dqm_num_cases dqm v)))
                   <$> dqm_variables dqm),
        dqm_variables dqm).
Proof.
  intros Hne Hlen. unfold ExactDQMSolver._all_cases_dqm.
  set (cases := (fun v => range 0 (Z.of_nat (dqm_num_cases dqm v)))
                  <$> dqm_variables dqm).
  replace (length (dqm_variables dqm)) with (length cases)
    by (unfold cases; apply length_fmap).
  rewrite meshgrid_reshape.
  - cbn [bind]. rewrite grid_rows_two; [reflexivity|].
    unfold cases. now rewrite length_fmap.
  - unfold cases. destruct (dqm_variables dqm); [congruence|discriminate].
Qed.

Lemma all_cases_dqm_order_witness :
  ExactDQMSolver._all_cases_dqm dqm_3_2
  = Ok ([[0; 0]; [0; 1]; [1; 0]; [1; 1]; [2; 0]; [2; 1]], ["u"; "v"]%string).
Proof.
  rewrite (all_cases_dqm_order dqm_3_2); [reflexivity|discriminate|cbn; lia].
Defined.

(** ** Integer bounds that are not whole numbers *)

Section Truncation.

Lemma py_int_lower (q : Q) (z : Z) : (inject_Z z <= q)%Q -> z <= py_int q.
Proof.
  unfold Qle, py_int. cbn. rewrite Z.mul_1_r. intros H.
  apply Z.quot_le_lower_bound; lia.
Qed.

Lemma py_int_upper (q : Q) (z : Z) : (q <= inject_Z z)%Q -> py_int q <= z.
Proof.
  unfold Qle, py_int. cbn. rewrite Z.mul_1_r. intros H.
  apply Z.quot_le_upper_bound; lia.
Qed.

(** Truncation moves a number by less than one. *)
Lemma py_int_near (q : Q) :
  (q - 1 < inject_Z (py_int q))%Q /\ (inject_Z (py_int q) < q + 1)%Q.
Proof.
  destruct q as [a b]. unfold Qlt, py_int. cbn.
  pose proof (Z.quot_rem' a (Z.pos b)) as Hdiv.
  pose proof (Z.rem_bound_abs a (Z.pos b)) as Hrem.
  assert (Hb : Z.abs (Z.pos b) = Z.pos b) by reflexivity.
  rewrite Hb in Hrem. specialize (Hrem ltac:(lia)).
  split; nia.
Qed.

End Truncation.

(** A model whose Integer variable has the bounds -5/2 and -3/2. *)
Definition cqm_fractional : ConstrainedQuadraticModel :=
  {| cqm_variables := ["i"]%string;
     cqm_vartype := fun _ => INTEGER;
     cqm_lower_bound := fun _ => (-5 # 2)%Q;
     cqm_upper_bound := fun _ => (-3 # 2)%Q;
     cqm_discrete := [];
     cqm_lhs_variables := fun _ => [];
     cqm_constraints := [];
     cqm_violation := fun _ _ _ => 0%Q;
     cqm_objective_energy := fun _ _ => 0%Q |}.

(** Truncation towards zero lets -1 into the domain, above the upper bound. *)
Example iterator_fractional :
  ExactCQMSolver._iterator_by_vartype cqm_fractional "i" = Ok [-2; -1].
Proof. reflexivity. Qed.

(** X13 - Integer domains with arbitrary bounds. For an Integer variable
    [_iterator_by_vartype] never fails; the domain it returns misses no
    integer between the lower and the upper bound, and every value in it is
    less than one away from that interval. *)
Theorem iterator_integer_bounds (cqm : ConstrainedQuadraticModel) (v : string) :
  cqm_vartype cqm v = INTEGER ->
  exists dom,
    ExactCQMSolver._iterator_by_vartype cqm v = Ok dom /\
    (forall x, (cqm_lower_bound cqm v <= inject_Z x)%Q ->
               (inject_Z x <= cqm_upper_bound cqm v)%Q -> x ∈ dom) /\
    (forall x, x ∈ dom ->
       (cqm_lower_bound cqm v - 1 < inject_Z x)%Q /\
       (inject_Z x < cqm_upper_bound cqm v + 1)%Q).
Proof.
  intros Hint. unfold ExactCQMSolver._iterator_by_vartype. rewrite Hint. cbn.
  eexists. split; [reflexivity|]. split.
  - intros x Hlo Hhi. apply elem_of_range. split.
    + now apply py_int_upper.
    + assert (x + 1 <= py_int (cqm_upper_bound cqm v + 1)); [|lia].
      apply py_int_lower. rewrite inject_Z_plus.
      apply Qplus_le_compat; [assumption|apply Qle_refl].
  - intros x Hx. apply elem_of_range in Hx as [Hlo Hhi].
    destruct (py_int_near (cqm_lower_bound cqm v)) as [Hnear _].
    destruct (py_int_near (cqm_upper_bound cqm v + 1)) as [_ Hnear'].
    split.
    + eapply Qlt_le_trans; [exact Hnear|]. now rewrite <- Zle_Qle.
    + apply (Qplus_lt_l _ _ 1%Q).
      eapply Qle_lt_trans; [|exact Hnear'].
      change (inject_Z x + 1)%Q with (inject_Z x + inject_Z 1)%Q.
      rewrite <- inject_Z_plus, <- Zle_Qle. lia.
Qed.

Lemma iterator_integer_bounds_witness :
  exists dom,
    ExactCQMSolver._iterator_by_vartype cqm_fractional "i" = Ok dom /\
    -2 ∈ dom /\
    forall x, x ∈ dom -> (-7 # 2 < inject_Z x)%Q /\ (inject_Z x < -1 # 2)%Q.
Proof.
  destruct (iterator_integer_bounds cqm_fractional "i")
    as (dom & Hrun & Hin & Hnear); [reflexivity|].
  exists dom. split; [assumption|]. split.
  - apply Hin; discriminate.
  - intros x Hx. destruct (Hnear x Hx) as [Hlo Hhi]. split.
    + exact Hlo.
    + exact Hhi.
Defined.

(** ** More on [sample_cqm] *)





(** ** The order of the rows of a grid *)

Section GridOrderGeneral.

Implicit Types (pools : list (list Z)) (pos : list nat).

Lemma zip_with_reverse {A B C : Type} (f : A -> B -> C) (l : list A) :
  forall k, length l = length k ->
  zip_with f (reverse l) (reverse k) = reverse (zip_with f l k).
Proof.
  induction l as [|a l IH]; intros [|b k] Hlen; try discriminate;
    [reflexivity|].
  cbn [zip_with]. rewrite !reverse_cons, zip_with_app.
  - rewrite IH by (cbn in Hlen; lia). reflexivity.
  - rewrite !length_reverse. cbn in Hlen. lia.
Qed.

Lemma zip_with_swap01 {A B C : Type} (f : A -> B -> C) (l : list A) (k : list B) :
  length l = length k ->
  zip_with f (Numpy.swap01 l) (Numpy.swap01 k) = Numpy.swap01 (zip_with f l k).
Proof.
  destruct l as [|a [|a' l]], k as [|b [|b' k]]; try discriminate; reflexivity.
Qed.

Lemma fmap_swap01 {A B : Type} (f : A -> B) (l : list A) :
  f <$> Numpy.swap01 l = Numpy.swap01 (f <$> l).
Proof. now destruct l as [|a [|b l]]. Qed.

(** Picking commutes with the transposition of the grid. *)
Lemma pick_transposed pools pos :
  length pos = length pools ->
  pick pools (Numpy.swap01 (reverse pos))
  = Numpy.swap01 (reverse (pick (reverse (Numpy.swap01 pools)) pos)).
Proof.
  intros Hlen. unfold pick.
  rewrite <- (reverse_involutive pos) at 2.
  rewrite zip_with_reverse
    by (now rewrite length_swap01, length_reverse).
  rewrite reverse_involutive.
  rewrite <- (swap01_involutive (reverse pos)) at 2.
  rewrite zip_with_swap01
    by (now rewrite length_swap01, length_reverse).
  now rewrite swap01_involutive.
Qed.

(** The rows of a grid are the tuples of [itertools.product] over the pools
    taken in the order last, ..., third, first, second, each tuple put back
    into the order of the pools. *)
Lemma grid_rows_order pools :
  grid_rows pools
  = (fun row => Numpy.swap01 (reverse row))
      <$> product (reverse (Numpy.swap01 pools)).
Proof.
  rewrite <- pick_indices, <- list_fmap_compose, fmap_reverse, fmap_swap01.
  unfold grid_rows. apply list_fmap_ext. intros k idx Hidx. cbn.
  apply pick_transposed.
  apply list_elem_of_lookup_2, elem_of_indices, Forall2_length in Hidx.
  now rewrite Hidx, length_reverse, length_swap01, length_fmap.
Qed.

End GridOrderGeneral.

(** X16 - row order of [_all_cases_dqm] in general. The rows are the
    tuples of [itertools.product] over the case ranges taken in the order
    last variable, ..., third, first, second, each tuple put back into
    variable order: the second variable changes fastest, then the first,
    then the third, and the last one changes slowest. *)
Theorem all_cases_dqm_order_general (dqm : DiscreteQuadraticModel) :
  dqm_variables dqm <> [] ->
  ExactDQMSolver._all_cases_dqm dqm
  = Ok ((fun row => Numpy.swap01 (reverse row))
          <$> product (reverse (Numpy.swap01
                ((fun v => range 0 (Z.of_nat (dqm_num_cases dqm v)))
                   <$> dqm_variables dqm))),
        dqm_variables dqm).
Proof.
  intros Hne. unfold ExactDQMSolver._all_cases_dqm.
  set (cases := (fun v => range 0 (Z.of_nat (dqm_num_cases dqm v)))
                  <$> dqm_variables dqm).
  replace (length (dqm_variables dqm)) with (length cases)
    by (unfold cases; apply length_fmap).
  rewrite meshgrid_reshape.
  - cbn [bind]. now rewrite grid_rows_order.
  - unfold cases. destruct (dqm_variables dqm); [congruence|discriminate].
Qed.

Lemma all_cases_dqm_order_general_witness :
  ExactDQMSolver._all_cases_dqm dqm_2_3_2
  = Ok ([[0; 0; 0]; [0; 1; 0]; [0; 2; 0]; [1; 0; 0]; [1; 1; 0]; [1; 2; 0];
         [0; 0; 1]; [0; 1; 1]; [0; 2; 1]; [1; 0; 1]; [1; 1; 1]; [1; 2; 1]],
        dqm_variables dqm_2_3_2).
Proof.
  rewrite (all_cases_dqm_order_general dqm_2_3_2); [reflexivity|discriminate].
Defined.

(** X17 - row order of [_all_cases_cqm]. The free-form variables are
    enumerated in the grid order of [_all_cases_dqm] (second variable
    fastest, then the first, then the third, the last one slowest). With
    one-hot groups, the choices of one case per group come in the order of
    [itertools.product] (last group fastest), and under each choice the
    free-form rows follow in their grid order. *)
Theorem all_cases_cqm_order (cqm : ConstrainedQuadraticModel)
    (cases : list (list Z)) :
  mapM (ExactCQMSolver._iterator_by_vartype cqm) (free_variables cqm) = Ok cases ->
  cases <> [] ->
  Forall (fun pool => pool <> []) cases ->
  Forall (fun k => (0 < k)%nat) (group_sizes cqm) ->
  let free_order :=
    (fun row => Numpy.swap01 (reverse row))
      <$> product (reverse (Numpy.swap01 cases)) in
  exists rows labels,
    ExactCQMSolver._all_cases_cqm cqm = Ok (rows, labels) /\
    (cqm_discrete cqm = [] -> rows = free_order) /\
    (cqm_discrete cqm <> [] ->
     rows = indexes ← product ((fun d => range 0 (Z.of_nat d)) <$> group_sizes cqm);
            (fun row => one_hot_concat (group_sizes cqm) indexes ++ row)
              <$> free_order).
Proof.
  intros Hcases Hne Hpools Hsizes free_order.
  do 2 eexists. split; [apply (all_cases_cqm_closed_form cqm cases Hcases)|].
  assert (Hfree : free_order = grid_rows cases)
    by (unfold free_order; now rewrite grid_rows_order).
  split.
  - intros Hnone. unfold group_sizes. rewrite Hnone. cbn [fmap list_fmap].
    rewrite joined_rows_no_groups, Hfree.
    destruct cases; [congruence|reflexivity].
  - intros Hsome. rewrite joined_rows_both; try assumption.
    + now rewrite Hfree.
    + unfold group_sizes. destruct (cqm_discrete cqm); [congruence|discriminate].
Qed.

Lemma all_cases_cqm_order_witness :
  exists rows labels,
    ExactCQMSolver._all_cases_cqm cqm_mixed = Ok (rows, labels) /\
    rows = [[1; 0; 0; -1; 3]; [1; 0; 0; -1; 4]; [1; 0; 0; 1; 3]; [1; 0; 0; 1; 4];
            [0; 1; 0; -1; 3]; [0; 1; 0; -1; 4]; [0; 1; 0; 1; 3]; [0; 1; 0; 1; 4];
            [0; 0; 1; -1; 3]; [0; 0; 1; -1; 4]; [0; 0; 1; 1; 3]; [0; 0; 1; 1; 4]].
Proof.
  destruct (all_cases_cqm_order cqm_mixed [[-1; 1]; [3; 4]])
    as (rows & labels & Hrun & _ & Hrows).
  - reflexivity.
  - discriminate.
  - repeat constructor; discriminate.
  - repeat constructor.
  - exists rows, labels. split; [assumption|].
    rewrite Hrows by discriminate. reflexivity.
Defined.
